(** * NAT reconciliation of the minion (minion/network/nat.go)

    A shallow embedding of the worker's port-forwarding reconciler: the
    rule compiler [routingRules], the listing parser [getRules], the chain
    synchroniser [syncChain], the baseline installer [setDefaultRules],
    the public-interface resolver [getPublicInterfaceImpl] and the entry
    point [updateNAT], together with the properties the specification
    states about them.

    Conventions.  A Go [string] is a [string]; a Go [int] is a [Z] (no
    arithmetic is performed on ports, so no wrap-around arises); a Go
    [error] is represented by its message; [map[string]map[int]struct{}]
    is a [gmap string (gset Z)].  Calls to the firewall adapter are run in
    a small state monad that threads the adapter's state and records every
    call together with its outcome. *)

From Stdlib Require Import Ascii String.
From stdpp Require Import gmap strings list fin_maps pretty.

#[local] Set Warnings "-clear-no-such-hyp".

(** Let [simpl] compute the concatenation of strings. *)
#[local] Arguments String.append !s1 s2 : simpl nomatch.

(* ===================================================================== *)
(** * Go's [strings] package, at the separator used by nat.go            *)
(* ===================================================================== *)

Module gostrings.

(** [strings.HasPrefix(s, prefix)]. *)
Definition HasPrefix (s prefix : string) : bool := String.prefix prefix s.

(** [strings.Index(s, sep)] followed by the two slicings
    [s[:m]] and [s[m+len(sep):]] of [genSplit], for a one-byte [sep]. *)
Fixpoint cut (s : string) (sep : ascii) : option (string * string) :=
  match s with
  | EmptyString => None
  | String a s' =>
      if Ascii.eqb a sep then Some (EmptyString, s')
      else match cut s' sep with
           | Some (h, t) => Some (String a h, t)
           | None => None
           end
  end.

(** The loop of [genSplit]: at most [n] cuts, then the remainder. *)
Fixpoint genSplit (s : string) (sep : ascii) (n : nat) : list string :=
  match n with
  | O => [s]
  | S n' =>
      match cut s sep with
      | None => [s]
      | Some (h, t) => h :: genSplit t sep n'
      end
  end.

(** [strings.SplitN(s, sep, n)] for [n >= 0]: at most [n] substrings, the
    last one being the unsplit remainder; [n = 0] gives nil. *)
Definition SplitN (s : string) (sep : ascii) (n : nat) : list string :=
  match n with
  | O => []
  | S k => genSplit s sep k
  end.

(** [strings.Split(s, sep)]: all substrings; there are at most
    [len(s)] separators in [s]. *)
Definition Split (s : string) (sep : ascii) : list string :=
  genSplit s sep (String.length s).

(** [strings.Join(a, sep)]; only used to state that [Split] loses
    nothing. *)
Fixpoint Join (a : list string) (sep : ascii) : string :=
  match a with
  | [] => EmptyString
  | [x] => x
  | x :: rest => x +:+ String sep (Join rest sep)
  end.

End gostrings.

(** A Go [error], by its message ([err.Error()], [%s]). *)
Definition error := string.

(* ===================================================================== *)
(** * The records read by the reconciler                                 *)
(* ===================================================================== *)

Module stitch.
(** [const PublicInternetLabel = "public"]. *)
Definition PublicInternetLabel : string := "public".

(** [type Placement struct]. *)
Record Placement := {
  TargetLabel : string;
  Exclusive : bool;
  OtherLabel : string;
  Provider : string;
  Size : string;
  Region : string
}.

(** [type Connection struct]. *)
Record Connection :=
  { From : string; To : string; MinPort : Z; MaxPort : Z }.

(** The fields of [Stitch] that [createPortRules] reads and writes. *)
Record Stitch :=
  { Connections : list Connection; Placements : list Placement }.

(** The label a connection touching the public internet is recorded
    under: [target := c.From; if c.From == PublicInternetLabel
    { target = c.To }]. *)
Definition portTarget (c : Connection) : string :=
  let target := From c in
  if bool_decide (From c = PublicInternetLabel) then To c else target.

(** The first loop of [createPortRules]: the labels listening on each
    public port, in the order of the connections. *)
Definition portLabels (connections : list Connection) : gmap Z (list string) :=
  foldl (λ ports c,
    if bool_decide (From c ≠ PublicInternetLabel)
       && bool_decide (To c ≠ PublicInternetLabel)
    then ports
    else
      let target := portTarget c in
      let min := MinPort c in
      <[min := default [] (ports !! min) ++ [target]]> ports)
    ∅ connections.

(** The [Placement] literal of [createPortRules]; the fields it does not
    name are zero. *)
Definition exclusivePlacement (tgt other : string) : Placement :=
  {| TargetLabel := tgt; Exclusive := true; OtherLabel := other;
     Provider := EmptyString; Size := EmptyString; Region := EmptyString |}.

(** [func (stitch *Stitch) createPortRules()].  The second loop ranges
    over a map, whose order Go leaves unspecified; [map_to_list] is one
    admissible order, and the properties below are stated up to
    permutation of the placements it appends. *)
Definition createPortRules (stitch : Stitch) : Stitch :=
  let ports := portLabels (Connections stitch) in
  {| Connections := Connections stitch;
     Placements :=
       Placements stitch ++
       ('(_, labels) ← map_to_list ports;
        tgt ← labels;
        other ← labels;
        [exclusivePlacement tgt other]) |}.
End stitch.

Module db.
(** The fields of [db.Container] that nat.go reads. *)
Record Container := { IP : string; Labels : list string }.

(** The fields of [db.Connection] that nat.go reads. *)
Record Connection :=
  { From : string; To : string; MinPort : Z; MaxPort : Z }.

(** Modelled from the spec: [db.Conn.SelectFromContainer] is not among
    the sources; the snapshot it returns is the container table
    restricted to the rows accepted by the given predicate. *)
Definition SelectFromContainer (tbl : list Container)
    (check : Container → bool) : list Container :=
  List.filter check tbl.

(** [db.Role] and the fields of [db.Minion] that nat.go reads. *)
Inductive Role := NoRole | Worker | Master.
Global Instance Role_eq_dec : EqDecision Role.
Proof. solve_decision. Defined.
Record Minion := { SupervisorInit : bool; MinionRole : Role }.
End db.

Module netlink.
(** [net.IPNet]: an address and a mask. *)
Record IPNet := { NetIP : list Z; Mask : list Z }.

(** The fields of [netlink.Route] that nat.go reads; a nil [Dst] is
    [None]. *)
Record Route := { Dst : option IPNet; LinkIndex : Z }.

(** [link.Attrs().Name]. *)
Record Link := { Name : string }.
End netlink.

(* ===================================================================== *)
(** * The rule compiler                                                  *)
(* ===================================================================== *)

Definition protocols : list string := ["tcp"; "udp"].

(** The [fmt.Sprintf] of [routingRules]; [%d] is [pretty]. *)
Definition dnatRule (publicInterface protocol : string) (port : Z)
    (ip : string) : string :=
  "-i " +:+ publicInterface +:+ " -p " +:+ protocol +:+ " -m " +:+ protocol
  +:+ " --dport " +:+ pretty port +:+ " -j DNAT --to-destination "
  +:+ ip +:+ ":" +:+ pretty port.

(** The body of the innermost loop: create the inner map when the address
    is new, then add the port to it. *)
Definition recordPort (portsFromWeb : gmap string (gset Z)) (ip : string)
    (port : Z) : gmap string (gset Z) :=
  let m := match portsFromWeb !! ip with
           | Some _ => portsFromWeb
           | None => <[ip := ∅]> portsFromWeb
           end in
  <[ip := {[port]} ∪ default ∅ (m !! ip)]> m.

(** The first loop nest of [routingRules]: each container address mapped to
    the ports on which it can receive packets from the public internet. *)
Definition portsFromWeb (containers : list db.Container)
    (connections : list db.Connection) : gmap string (gset Z) :=
  foldl (λ m dbc,
    foldl (λ m conn,
      if bool_decide (db.From conn ≠ stitch.PublicInternetLabel) then m
      else
        foldl (λ m l,
          if bool_decide (db.To conn ≠ l) then m
          else recordPort m (db.IP dbc) (db.MinPort conn))
          m (db.Labels dbc))
      m connections)
    ∅ containers.

(** The second loop nest.  Go leaves the iteration order of a map
    unspecified; the order of [map_to_list] and [elements] is one of the
    admissible orders, and the properties below are stated up to
    permutation of the result. *)
Definition emitRules (publicInterface : string)
    (m : gmap string (gset Z)) : list string :=
  '(ip, ports) ← map_to_list m;
  port ← elements ports;
  protocol ← protocols;
  [dnatRule publicInterface protocol port ip].

Definition routingRules (publicInterface : string)
    (containers : list db.Container) (connections : list db.Connection)
    : list string :=
  emitRules publicInterface (portsFromWeb containers connections).

(* ===================================================================== *)
(** * The join of current against desired rules                          *)
(* ===================================================================== *)

Module join.
(** Modelled from the spec: the [join] package ([join.HashJoin],
    [join.StringSlice]) is not among the sources.  With nil key
    functions the join is an equi-join on the full rule string: the
    pairs are the rules present on both sides, the lonely lefts are the
    left rules absent from the right set, and the lonely rights are the
    right rules absent from the left set, each side read as a set. *)
Definition HashJoin (lSlice rSlice : list string)
    : list (string * string) * list string * list string :=
  ((λ x, (x, x)) <$> remove_dups (list_intersection lSlice rSlice),
   remove_dups (list_difference lSlice rSlice),
   remove_dups (list_difference rSlice lSlice)).
End join.

(* ===================================================================== *)
(** * The firewall adapter and the monad of adapter calls                *)
(* ===================================================================== *)

(** One call through the [IPTables] interface. *)
Inductive Call :=
| CallAppend (table chain : string) (rulespec : list string)
| CallAppendUnique (table chain : string) (rulespec : list string)
| CallDelete (table chain : string) (rulespec : list string)
| CallList (table chain : string).

(** A call together with the error it returned ([None] is nil). *)
Record Event := { ev_call : Call; ev_err : option error }.

(** [type IPTables interface]: an implementation over a state [S]. *)
Record IPTables (S : Type) := {
  Append : string → string → list string → S → option error * S;
  AppendUnique : string → string → list string → S → option error * S;
  Delete : string → string → list string → S → option error * S;
  List : string → string → S → (list string * option error) * S
}.
Arguments Append {S}.
Arguments AppendUnique {S}.
Arguments Delete {S}.
Arguments List {S}.

(** The adapter's state and the calls made so far, oldest first. *)
Record World (S : Type) := { backend : S; trace : list Event }.
Arguments backend {S}.
Arguments trace {S}.

Definition M (S A : Type) : Type := World S → A * World S.

Global Instance M_ret {S} : MRet (M S) := λ A (a : A) w, (a, w).
Global Instance M_bind {S} : MBind (M S) := λ A B (k : A → M S B) (m : M S A) w,
  let '(a, w') := m w in k a w'.
Global Instance M_fmap {S} : FMap (M S) := λ A B (f : A → B) (m : M S A) w,
  let '(a, w') := m w in (f a, w').

Definition logged {S A} (c : Call) (err : A → option error)
    (f : S → A * S) : M S A := λ w,
  let '(a, s) := f (backend w) in
  (a, {| backend := s;
         trace := trace w ++ [{| ev_call := c; ev_err := err a |}] |}).

Section Reconciler.
Context {S : Type}.
Variable ipt : IPTables S.

Definition ipt_Append (table chain : string) (rulespec : list string)
    : M S (option error) :=
  logged (CallAppend table chain rulespec) id (Append ipt table chain rulespec).
Definition ipt_AppendUnique (table chain : string) (rulespec : list string)
    : M S (option error) :=
  logged (CallAppendUnique table chain rulespec) id
         (AppendUnique ipt table chain rulespec).
Definition ipt_Delete (table chain : string) (rulespec : list string)
    : M S (option error) :=
  logged (CallDelete table chain rulespec) id (Delete ipt table chain rulespec).
Definition ipt_List (table chain : string)
    : M S (list string * option error) :=
  logged (CallList table chain) snd (List ipt table chain).

(** [for _, x := range l { if err := body(x); err != nil { return err } }
    return nil]. *)
Fixpoint forRange {A} (l : list A) (body : A → M S (option error))
    : M S (option error) :=
  match l with
  | [] => mret None
  | x :: l' =>
      err ← body x;
      match err with
      | Some e => mret (Some e)
      | None => forRange l' body
      end
  end.

(** [fmt.Errorf(prefix + "%s", err)] applied to a possibly nil error. *)
Definition wrap (prefix : string) (err : option error) : option error :=
  match err with
  | Some e => Some (prefix +:+ e)
  | None => None
  end.

(** The loop of [getRules] over the listing; [rules] accumulates. *)
Fixpoint parseRules (rawRules rules : list string)
    : list string * option error :=
  match rawRules with
  | [] => (rules, None)
  | r :: rest =>
      if negb (gostrings.HasPrefix r "-A") then parseRules rest rules
      else
        match gostrings.SplitN r " " 3 with
        | [_; _; rule] => parseRules rest (rules ++ [rule])
        | _ => ([], Some ("malformed rule: " +:+ r))
        end
  end.

Definition getRules (table chain : string)
    : M S (list string * option error) :=
  '(rawRules, err) ← ipt_List table chain;
  match err with
  | Some e => mret ([], Some e)
  | None => mret (parseRules rawRules [])
  end.

Definition syncChain (table chain : string) (target : list string)
    : M S (option error) :=
  '(curr, err) ← getRules table chain;
  match err with
  | Some e => mret (Some ("iptables get: " +:+ e))
  | None =>
      let '(_, rulesToDel, rulesToAdd) := join.HashJoin curr target in
      err ← forRange rulesToDel (λ r,
               let ruleSpec := gostrings.Split r " " in
               wrap "iptables delete: " <$> ipt_Delete table chain ruleSpec);
      match err with
      | Some e => mret (Some e)
      | None =>
          forRange rulesToAdd (λ r,
            let ruleSpec := gostrings.Split r " " in
            wrap "iptables append: " <$> ipt_Append table chain ruleSpec)
      end
  end.

(** [type rule struct]. *)
Record rule := { table : string; chain : string; ruleSpec : list string }.

Definition defaultRules (publicInterface : string) : list rule :=
  [ {| table := "nat"; chain := "INPUT"; ruleSpec := ["-j"; "ACCEPT"] |};
    {| table := "nat"; chain := "OUTPUT"; ruleSpec := ["-j"; "ACCEPT"] |};
    {| table := "nat"; chain := "POSTROUTING";
       ruleSpec := ["-s"; "10.0.0.0/8"; "-o"; publicInterface;
                    "-j"; "MASQUERADE"] |} ].

Definition setDefaultRules (publicInterface : string) : M S (option error) :=
  forRange (defaultRules publicInterface) (λ r,
    wrap "iptables append: "
      <$> ipt_AppendUnique (table r) (chain r) (ruleSpec r)).

(** The routing subsystem as nat.go reaches it: the package variables
    [routeList] and [linkByIndex].  Both only read. *)
Record Netlink := {
  routeList : list netlink.Route * option error;
  linkByIndex : Z → netlink.Link * option error
}.

(** The search loop of [getPublicInterfaceImpl]: the first route whose
    [Dst] is nil, if any. *)
Fixpoint defaultRoute (routes : list netlink.Route) : option netlink.Route :=
  match routes with
  | [] => None
  | r :: rest =>
      match netlink.Dst r with
      | None => Some r
      | Some _ => defaultRoute rest
      end
  end.

Definition getPublicInterfaceImpl (nl : Netlink) : string * option error :=
  let '(routes, err) := routeList nl in
  match err with
  | Some e => (EmptyString, Some ("route list: " +:+ e))
  | None =>
      match defaultRoute routes with
      | None => (EmptyString, Some "missing default route")
      | Some r =>
          let '(link, err) := linkByIndex nl (netlink.LinkIndex r) in
          match err with
          | Some e =>
              (EmptyString, Some ("default route missing interface: " +:+ e))
          | None => (netlink.Name link, err)
          end
      end
  end.

(** [var getPublicInterface = getPublicInterfaceImpl]. *)
Definition getPublicInterface := getPublicInterfaceImpl.

Definition updateNAT (nl : Netlink) (containers : list db.Container)
    (connections : list db.Connection) : M S (option error) :=
  let '(publicInterface, err) := getPublicInterface nl in
  match err with
  | Some e => mret (Some ("get public interface: " +:+ e))
  | None =>
      err ← setDefaultRules publicInterface;
      match err with
      | Some e => mret (Some e)
      | None =>
          let target := routingRules publicInterface containers connections in
          syncChain "nat" "PREROUTING" target
      end
  end.

(** The container snapshot of one tick of [runNat]. *)
Definition tickContainers (containerTable : list db.Container)
    : list db.Container :=
  db.SelectFromContainer containerTable
    (λ c, negb (String.eqb (db.IP c) EmptyString)).

(** The body of the loop of [runNat] for one tick.  [self] is the result
    of [conn.MinionSelf()], [new] the error of [iptables.New()] whose
    handle is [ipt]; logging is not represented. *)
Definition runNatTick (self : db.Minion * option error)
    (containerTable : list db.Container)
    (connectionTable : list db.Connection)
    (new : option error) (nl : Netlink) : M S unit :=
  let '(minion, err) := self in
  if bool_decide (err ≠ None) || negb (db.SupervisorInit minion)
     || negb (bool_decide (db.MinionRole minion = db.Worker))
  then mret tt
  else
    let connections := connectionTable in
    let containers := tickContainers containerTable in
    match new with
    | Some _ => mret tt
    | None => _ ← updateNAT nl containers connections; mret tt
    end.

End Reconciler.

Definition scenarioA_containers : list db.Container :=
  [ {| db.IP := "10.0.0.5"; db.Labels := ["web"] |} ].
Definition scenarioA_connections : list db.Connection :=
  [ {| db.From := "public"; db.To := "web"; db.MinPort := 80; db.MaxPort := 80 |} ].

(** Scenario B: the container of scenario A without address. *)
Definition scenarioB_containers : list db.Container :=
  [ {| db.IP := EmptyString; db.Labels := ["web"] |} ].

(** A ranged connection 80-90 from the public internet, next to a second
    public connection whose only port, 85, lies inside that range. *)
Definition overlappedConnection : db.Connection :=
  {| db.From := "public"; db.To := "web";
     db.MinPort := 80; db.MaxPort := 90 |}.
Definition insideConnection : db.Connection :=
  {| db.From := "public"; db.To := "web";
     db.MinPort := 85; db.MaxPort := 85 |}.

(** Scenario E: two labels, one container each, both reachable from the
    public internet on port 80. *)
Definition scenarioE_containers : list db.Container :=
  [ {| db.IP := "10.0.0.5"; db.Labels := ["web"] |};
    {| db.IP := "10.0.0.6"; db.Labels := ["api"] |} ].
Definition scenarioE_connections : list db.Connection :=
  [ {| db.From := "public"; db.To := "web"; db.MinPort := 80; db.MaxPort := 80 |};
    {| db.From := "public"; db.To := "api"; db.MinPort := 80; db.MaxPort := 80 |} ].

(* ===================================================================== *)
(** * An in-memory adapter                                               *)
(* ===================================================================== *)

Module fake.

(** The rules of each (table, chain), each rule as its argument string. *)
Definition state : Type := gmap (string * string) (list string).

Definition rulesOf (s : state) (table chain : string) : list string :=
  default [] (s !! (table, chain)).

(** The listing in the format of [iptables -S]: the chain's policy line,
    then one [-A <chain> <args>] line per rule. *)
Definition fList (table chain : string) (s : state)
    : (list string * option error) * state :=
  (("-P " +:+ chain +:+ " ACCEPT")
     :: ((λ r, "-A " +:+ chain +:+ " " +:+ r) <$> rulesOf s table chain),
   None, s).

Definition fAppend (table chain : string) (rulespec : list string)
    (s : state) : option error * state :=
  (None, <[(table, chain) :=
            rulesOf s table chain ++ [gostrings.Join rulespec " "]]> s).

Definition fAppendUnique (table chain : string) (rulespec : list string)
    (s : state) : option error * state :=
  if bool_decide (gostrings.Join rulespec " " ∈ rulesOf s table chain)
  then (None, s) else fAppend table chain rulespec s.

Fixpoint removeFirst (r : string) (l : list string) : list string :=
  match l with
  | [] => []
  | x :: l' => if bool_decide (x = r) then l' else x :: removeFirst r l'
  end.

Definition fDelete (table chain : string) (rulespec : list string)
    (s : state) : option error * state :=
  let r := gostrings.Join rulespec " " in
  if bool_decide (r ∈ rulesOf s table chain)
  then (None, <[(table, chain) := removeFirst r (rulesOf s table chain)]> s)
  else (Some "rule does not exist", s).

Definition ipt : IPTables state :=
  {| Append := fAppend; AppendUnique := fAppendUnique;
     Delete := fDelete; List := fList |}.

(** An adapter that lists like [ipt] and refuses every mutation. *)
Definition denied : IPTables state :=
  {| Append := λ _ _ _ s, (Some "permission denied", s);
     AppendUnique := λ _ _ _ s, (Some "permission denied", s);
     Delete := λ _ _ _ s, (Some "permission denied", s);
     List := fList |}.

(** An adapter whose listing is the given raw lines. *)
Definition listing (raw : list string) : IPTables unit :=
  {| Append := λ _ _ _ s, (None, s);
     AppendUnique := λ _ _ _ s, (None, s);
     Delete := λ _ _ _ s, (None, s);
     List := λ _ _ s, (raw, None, s) |}.

Definition start (s : state) : World state := {| backend := s; trace := [] |}.

End fake.

(** Scenario C: the live chain forwards TCP port 80 to a stale address. *)
Definition staleRules : list string :=
  [ "-i eth0 -p tcp -m tcp --dport 80 -j DNAT --to-destination 10.0.0.9:80";
    "-i eth0 -p udp -m udp --dport 80 -j DNAT --to-destination 10.0.0.5:80" ].

Definition staleChain : fake.state :=
  {[ ("nat", "PREROUTING") := staleRules ]}.

Definition targetA : list string :=
  routingRules "eth0" scenarioA_containers scenarioA_connections.

Definition eth0 : Netlink :=
  {| routeList :=
       ([ {| netlink.Dst := Some {| netlink.NetIP := [10; 0; 0; 0]%Z;
                                    netlink.Mask := [255; 0; 0; 0]%Z |};
             netlink.LinkIndex := 3 |};
          {| netlink.Dst := None; netlink.LinkIndex := 2 |};
          {| netlink.Dst := None; netlink.LinkIndex := 7 |} ], None);
     linkByIndex := λ i, if bool_decide (i = 2%Z)
                         then ({| netlink.Name := "eth0" |}, None)
                         else ({| netlink.Name := EmptyString |},
                               Some "Link not found") |}.

(** A routing table without default route. *)
Definition internalOnly : Netlink :=
  {| routeList :=
       ([ {| netlink.Dst := Some {| netlink.NetIP := [10; 0; 0; 0]%Z;
                                    netlink.Mask := [255; 0; 0; 0]%Z |};
             netlink.LinkIndex := 3 |} ], None);
     linkByIndex := linkByIndex eth0 |}.

(* ===================================================================== *)
(** * Vocabulary of the statements                                       *)
(* ===================================================================== *)

(** The byte [c] occurs in [s]. *)
Fixpoint occurs (c : ascii) (s : string) : Prop :=
  match s with
  | EmptyString => False
  | String a s' => a = c ∨ occurs c s'
  end.

(** [r] consists of two space-free tokens [a] and [b], each followed by
    one space, and the remainder [args]. *)
Definition threeFields (r a b args : string) : Prop :=
  r = a +:+ " " +:+ b +:+ " " +:+ args ∧ ¬ occurs " " a ∧ ¬ occurs " " b.

(** [r] can be split into three space-separated fields. *)
Definition wellFormed (r : string) : Prop := ∃ a b args, threeFields r a b args.

(** The prefix under which [syncChain] and [setDefaultRules] return the
    error of a call. *)
Definition errorPrefix (c : Call) : string :=
  match c with
  | CallList _ _ => "iptables get: "
  | CallDelete _ _ _ => "iptables delete: "
  | CallAppend _ _ _ => "iptables append: "
  | CallAppendUnique _ _ _ => "iptables append: "
  end.

(** The calls by which [syncChain] deletes and appends the rule [r]. *)
Definition deleteCall (table chain r : string) : Call :=
  CallDelete table chain (gostrings.Split r " ").
Definition appendCall (table chain r : string) : Call :=
  CallAppend table chain (gostrings.Split r " ").

(** The ports recorded for the address [ip] in [m]. *)
Definition portsAt (m : gmap string (gset Z)) (ip : string) : gset Z :=
  default ∅ (m !! ip).

(** Every address of [m] has at least one port. *)
Definition inhabitedPorts (m : gmap string (gset Z)) : Prop :=
  ∀ ip ports, m !! ip = Some ports → ports ≠ ∅.

(** The (address, port) pairs collected from the public-source
    connections: [ip] is the address of a container one of whose labels is
    the destination of a connection from the public internet with minimum
    port [port]. *)
Definition collected (containers : list db.Container)
    (connections : list db.Connection) (ip : string) (port : Z) : Prop :=
  ∃ dbc conn,
    dbc ∈ containers ∧ conn ∈ connections
    ∧ db.From conn = stitch.PublicInternetLabel
    ∧ db.To conn ∈ db.Labels dbc
    ∧ db.IP dbc = ip ∧ db.MinPort conn = port.

(** [conn] with its maximum port replaced. *)
Definition withMaxPort (maxPort : Z) (conn : db.Connection) : db.Connection :=
  {| db.From := db.From conn; db.To := db.To conn;
     db.MinPort := db.MinPort conn; db.MaxPort := maxPort |}.

(** The distinct (address, port) pairs collected from the public-source
    connections, computed by a comprehension over the two lists. *)
Definition collectedPairs (containers : list db.Container)
    (connections : list db.Connection) : gset (string * Z) :=
  list_to_set
    (dbc ← containers;
     conn ← connections;
     if bool_decide (db.From conn = stitch.PublicInternetLabel)
     then l ← db.Labels dbc;
          if bool_decide (db.To conn = l)
          then [(db.IP dbc, db.MinPort conn)] else []
     else []).

(** The table and chain a call addresses. *)
Definition callChain (c : Call) : string * string :=
  match c with
  | CallAppend t ch _ | CallAppendUnique t ch _ | CallDelete t ch _
  | CallList t ch => (t, ch)
  end.

Definition isAppendUnique (c : Call) : bool :=
  match c with
  | CallAppendUnique _ _ _ => true
  | _ => false
  end.

(** A call that returned an error is the last event of [evs], and [err]
    is that error under the prefix of the call. *)
Definition failStop (evs : list Event) (err : option error) : Prop :=
  ∀ pre ev post e0,
    evs = pre ++ ev :: post → ev_err ev = Some e0 →
    post = [] ∧ err = Some (errorPrefix (ev_call ev) +:+ e0).

(** The line of the listing for the rule [r] of the chain [chain]. *)
Definition listingLine (chain r : string) : string :=
  "-A " +:+ chain +:+ " " +:+ r.

(** A connection of a stitch touches the public internet. *)
Definition touchesPublic (c : stitch.Connection) : Prop :=
  stitch.From c = stitch.PublicInternetLabel
  ∨ stitch.To c = stitch.PublicInternetLabel.

Global Instance touchesPublic_dec c : Decision (touchesPublic c).
Proof. unfold touchesPublic. apply _. Defined.

(** A line of the listing that [getRules] takes for a rule. *)
Definition ruleLine (r : string) : Prop := gostrings.HasPrefix r "-A" = true.

Global Instance ruleLine_dec r : Decision (ruleLine r).
Proof. unfold ruleLine. apply _. Defined.

(** No event of [evs] carries an error. *)
Definition quiet (evs : list Event) : Prop :=
  Forall (λ e, ev_err e = None) evs.

(** What a loop that issues the calls [cs] one after the other, and
    returns at the first error wrapped with [pfx], leaves behind: the
    events and the returned error. *)
Inductive loopRun (pfx : string) : list Call → list Event → option error → Prop :=
| loopRun_done : loopRun pfx [] [] None
| loopRun_next c cs evs err :
    loopRun pfx cs evs err →
    loopRun pfx (c :: cs) ({| ev_call := c; ev_err := None |} :: evs) err
| loopRun_stop c cs e :
    loopRun pfx (c :: cs) [{| ev_call := c; ev_err := Some e |}]
            (Some (pfx +:+ e)).

Definition isMutation (c : Call) : bool :=
  match c with
  | CallList _ _ => false
  | _ => true
  end.

Definition isDelete (c : Call) : bool :=
  match c with
  | CallDelete _ _ _ => true
  | _ => false
  end.

Definition isAppend (c : Call) : bool :=
  match c with
  | CallAppend _ _ _ => true
  | _ => false
  end.

(* ===================================================================== *)
(** * Strings                                                            *)
(* ===================================================================== *)

Lemma length_append (a b : string) :
  String.length (a +:+ b) = String.length a + String.length b.
Proof. induction a as [|x a IH]; simpl; [done|]. by rewrite IH. Qed.

Lemma occurs_append c (a b : string) :
  occurs c (a +:+ b) ↔ occurs c a ∨ occurs c b.
Proof. induction a as [|x a IH]; simpl; [tauto|]. rewrite IH. tauto. Qed.

(** Splitting at the first occurrence of a byte is unique. *)
Lemma first_occurrence_unique c (h1 t1 h2 t2 : string) :
  ¬ occurs c h1 → ¬ occurs c h2 →
  h1 +:+ String c t1 = h2 +:+ String c t2 → h1 = h2 ∧ t1 = t2.
Proof.
  revert h2. induction h1 as [|x h1 IH]; intros [|y h2] N1 N2 E;
    simpl in *; simplify_eq.
  - done.
  - tauto.
  - tauto.
  - destruct (IH h2) as [-> ->]; [tauto..|done|done].
Qed.

Lemma cut_Some s sep h t :
  gostrings.cut s sep = Some (h, t) ↔ s = h +:+ String sep t ∧ ¬ occurs sep h.
Proof.
  revert h. induction s as [|a s IH]; intros h; simpl.
  - split; [done|]. intros [E _]. by destruct h.
  - destruct (Ascii.eqb_spec a sep) as [->|Hne].
    + split.
      * intros [= <- <-]. simpl. tauto.
      * intros [E N]. destruct h as [|b h]; simpl in *; simplify_eq; tauto.
    + destruct (gostrings.cut s sep) as [[h' t']|] eqn:Hc.
      * split.
        -- intros [= <- <-]. destruct (proj1 (IH h') eq_refl) as [-> N].
           simpl. tauto.
        -- intros [E N]. destruct h as [|b h]; simpl in *; simplify_eq.
           assert (Some (h', t') = Some (h, t)) as [= -> ->]; [|done].
           apply IH. tauto.
      * split; [done|]. intros [E N].
        destruct h as [|b h]; simpl in *; simplify_eq.
        assert (None = Some (h, t)) as [=]. apply IH. tauto.
Qed.

Lemma cut_None s sep : gostrings.cut s sep = None ↔ ¬ occurs sep s.
Proof.
  induction s as [|a s IH]; simpl; [tauto|].
  destruct (Ascii.eqb_spec a sep) as [->|Hne]; [split; [done|tauto]|].
  destruct (gostrings.cut s sep) as [[h t]|].
  - split; [done|]. intros N. exfalso. destruct IH as [_ IH].
    discriminate IH. tauto.
  - split; [|done]. intros _. destruct IH as [IH _]. specialize (IH eq_refl).
    tauto.
Qed.

Lemma genSplit_nonempty s sep n : gostrings.genSplit s sep n ≠ [].
Proof. destruct n; simpl; [done|]. by destruct (gostrings.cut s sep) as [[??]|]. Qed.

Lemma Join_cons x l sep :
  l ≠ [] → gostrings.Join (x :: l) sep = x +:+ String sep (gostrings.Join l sep).
Proof. by destruct l. Qed.

Lemma Join_genSplit sep n s :
  gostrings.Join (gostrings.genSplit s sep n) sep = s.
Proof.
  revert s. induction n as [|n IH]; intros s; simpl; [done|].
  destruct (gostrings.cut s sep) as [[h t]|] eqn:Hc; [|done].
  apply cut_Some in Hc as [-> _].
  rewrite Join_cons by apply genSplit_nonempty. by rewrite IH.
Qed.

(** [Split] loses nothing: joining the fields gives the string back, so
    two rules with the same argument list are the same rule. *)
Lemma Join_Split s sep : gostrings.Join (gostrings.Split s sep) sep = s.
Proof. apply Join_genSplit. Qed.

Lemma Split_inj sep : Inj (=) (=) (λ s, gostrings.Split s sep).
Proof.
  intros s1 s2 E. rewrite <-(Join_Split s1 sep), <-(Join_Split s2 sep).
  simpl in E. by rewrite E.
Qed.

(** [SplitN r " " 3] has three fields exactly when [r] has the shape
    [a b args]. *)
Lemma SplitN3_fields r a b args :
  gostrings.SplitN r " " 3 = [a; b; args] ↔ threeFields r a b args.
Proof.
  unfold threeFields. simpl.
  destruct (gostrings.cut r " ") as [[h t]|] eqn:Hc.
  - apply cut_Some in Hc as [-> Nh].
    destruct (gostrings.cut t " ") as [[h2 t2]|] eqn:Hc2.
    + apply cut_Some in Hc2 as [-> Nh2]. split.
      * intros [= <- <- <-]. done.
      * intros (E & Na & Nb).
        apply first_occurrence_unique in E as [<- E]; [|done..].
        apply first_occurrence_unique in E as [<- <-]; done.
    + apply cut_None in Hc2. split; [done|]. intros (E & Na & Nb).
      apply first_occurrence_unique in E as [<- ->]; [|done..].
      destruct Hc2. apply occurs_append. right. simpl. tauto.
  - apply cut_None in Hc. split; [done|]. intros (-> & _).
    destruct Hc. apply occurs_append. right. simpl. tauto.
Qed.

(* ===================================================================== *)
(** * Loops of adapter calls                                             *)
(* ===================================================================== *)

Ltac run := unfold mbind, M_bind, fmap, M_fmap, mret, M_ret, logged; simpl.

Lemma loopRun_prefix pfx cs evs err :
  loopRun pfx cs evs err → (ev_call <$> evs) `prefix_of` cs.
Proof.
  induction 1 as [|c cs evs err _ IH|c cs e]; simpl.
  - done.
  - by apply prefix_cons.
  - apply prefix_cons, prefix_nil.
Qed.

Lemma loopRun_None pfx cs evs :
  loopRun pfx cs evs None → ev_call <$> evs = cs ∧ quiet evs.
Proof.
  remember None as err eqn:E. induction 1 as [|c cs evs err _ IH|c cs e].
  - split; [done|constructor].
  - destruct (IH E) as [<- Q]. split; [done|]. by constructor.
  - done.
Qed.

Lemma loopRun_Some pfx cs evs e :
  loopRun pfx cs evs (Some e) →
  ∃ evs0 c e0, evs = evs0 ++ [{| ev_call := c; ev_err := Some e0 |}]
               ∧ quiet evs0 ∧ e = pfx +:+ e0.
Proof.
  remember (Some e) as err eqn:E. induction 1 as [|c cs evs err _ IH|c cs e'].
  - done.
  - destruct (IH E) as (evs0 & c' & e0 & -> & Q & ->).
    exists ({| ev_call := c; ev_err := None |} :: evs0), c', e0.
    split; [done|]. split; [by constructor|done].
  - injection E as <-. exists [], c, e'. split; [done|]. split; [constructor|done].
Qed.

(** A failed call ends the loop: nothing follows it, and the loop
    returns its error. *)
Lemma loopRun_failed_last pfx cs evs err pre ev post e0 :
  loopRun pfx cs evs err → evs = pre ++ ev :: post → ev_err ev = Some e0 →
  post = [] ∧ err = Some (pfx +:+ e0).
Proof.
  intros R. revert pre. induction R as [|c cs evs err _ IH|c cs e]; intros pre E F.
  - by destruct pre.
  - destruct pre as [|x pre]; simpl in E; simplify_eq/=. by eapply IH.
  - destruct pre as [|x pre]; simpl in E; simplify_eq/=; [done|].
    by destruct pre.
Qed.

Lemma forRange_cons {S A} (x : A) l (body : A → M S (option error)) w :
  forRange (x :: l) body w =
  match (body x w).1 with
  | Some e => (Some e, (body x w).2)
  | None => forRange l body (body x w).2
  end.
Proof. simpl. run. by destruct (body x w) as [[e|] w']. Qed.

Lemma logged_run {S A} c (err : A → option error) (f : S → A * S) w :
  logged c err f w =
  ((f (backend w)).1,
   {| backend := (f (backend w)).2;
      trace := trace w ++ [{| ev_call := c; ev_err := err (f (backend w)).1 |}] |}).
Proof. unfold logged. by destruct (f (backend w)). Qed.

Lemma fmap_run {S A B} (g : A → B) (m : M S A) w :
  (g <$> m) w = (g (m w).1, (m w).2).
Proof. unfold fmap, M_fmap. by destruct (m w). Qed.

Lemma bind_run {S A B} (k : A → M S B) (m : M S A) w :
  (m ≫= k) w = k (m w).1 (m w).2.
Proof. unfold mbind, M_bind. by destruct (m w). Qed.

Lemma forRange_logged {S A} pfx (c : A → Call) (f : A → S → option error * S)
    (l : list A) (w : World S) :
  let r := forRange l (λ x, wrap pfx <$> logged (c x) id (f x)) w in
  ∃ evs, trace r.2 = trace w ++ evs ∧ loopRun pfx (c <$> l) evs r.1.
Proof.
  revert w. induction l as [|x l IH]; intros w.
  - exists []. simpl. rewrite app_nil_r. split; [done|constructor].
  - cbv zeta in *. rewrite forRange_cons, fmap_run, logged_run. simpl.
    destruct (f x (backend w)) as [[e|] s] eqn:Hf; simpl.
    + eexists. split; [done|]. constructor.
    + match goal with |- context [forRange l ?b ?w'] =>
        destruct (IH w') as (evs & Ht & Hr) end.
      simpl in Ht. eexists. rewrite Ht, <-app_assoc. split; [done|].
      simpl. by constructor.
Qed.

(* ===================================================================== *)
(** * The public interface                                               *)
(* ===================================================================== *)

Lemma defaultRoute_first before r after :
  Forall (λ x, netlink.Dst x ≠ None) before → netlink.Dst r = None →
  defaultRoute (before ++ r :: after) = Some r.
Proof.
  intros Hb Hr. induction Hb as [|x before Hx _ IH]; simpl.
  - by rewrite Hr.
  - by destruct (netlink.Dst x).
Qed.

Lemma defaultRoute_none routes :
  Forall (λ x, netlink.Dst x ≠ None) routes → defaultRoute routes = None.
Proof.
  induction 1 as [|x routes Hx _ IH]; simpl; [done|].
  by destruct (netlink.Dst x).
Qed.

(** C10.  When the route list holds several routes without destination
    network, [getPublicInterfaceImpl] resolves the first of them in list
    order: with [r] the first route whose [Dst] is nil, the result is the
    name of the link with index [LinkIndex r] (or the wrapped lookup
    error), whatever routes [after] follow it. *)
Theorem getPublicInterfaceImpl_first_default (nl : Netlink) before r after :
  routeList nl = (before ++ r :: after, None) →
  Forall (λ x, netlink.Dst x ≠ None) before →
  netlink.Dst r = None →
  getPublicInterfaceImpl nl =
    match linkByIndex nl (netlink.LinkIndex r) with
    | (link, None) => (netlink.Name link, None)
    | (_, Some e) =>
        (EmptyString, Some ("default route missing interface: " +:+ e))
    end.
Proof.
  intros Hl Hb Hr. unfold getPublicInterfaceImpl. rewrite Hl.
  rewrite (defaultRoute_first _ _ _ Hb Hr).
  by destruct (linkByIndex nl (netlink.LinkIndex r)) as [link [e|]].
Qed.

Lemma getPublicInterfaceImpl_first_default_witness :
  getPublicInterfaceImpl eth0 = ("eth0", None).
Proof.
  apply (getPublicInterfaceImpl_first_default eth0
           [ {| netlink.Dst := Some {| netlink.NetIP := [10; 0; 0; 0]%Z;
                                       netlink.Mask := [255; 0; 0; 0]%Z |};
                netlink.LinkIndex := 3 |} ]
           {| netlink.Dst := None; netlink.LinkIndex := 2 |}
           [ {| netlink.Dst := None; netlink.LinkIndex := 7 |} ]).
  - reflexivity.
  - repeat constructor. simpl. discriminate.
  - reflexivity.
Defined.

(** C7.  If the route list holds no route without destination network,
    [updateNAT] returns the error "missing default route" (wrapped by
    "get public interface: ") and leaves the world as it was: no call to
    the adapter is recorded and its state is unchanged. *)
Theorem updateNAT_missing_default_route {S} (ipt : IPTables S) (nl : Netlink)
    containers connections routes (w : World S) :
  routeList nl = (routes, None) →
  Forall (λ r, netlink.Dst r ≠ None) routes →
  updateNAT ipt nl containers connections w =
    (Some "get public interface: missing default route", w).
Proof.
  intros Hl Hr. unfold updateNAT, getPublicInterface, getPublicInterfaceImpl.
  rewrite Hl, (defaultRoute_none _ Hr). reflexivity.
Qed.

Lemma updateNAT_missing_default_route_witness :
  updateNAT fake.ipt internalOnly scenarioA_containers scenarioA_connections
    (fake.start staleChain) =
  (Some "get public interface: missing default route", fake.start staleChain).
Proof.
  apply (updateNAT_missing_default_route fake.ipt internalOnly _ _
           [ {| netlink.Dst := Some {| netlink.NetIP := [10; 0; 0; 0]%Z;
                                       netlink.Mask := [255; 0; 0; 0]%Z |};
                netlink.LinkIndex := 3 |} ]).
  - reflexivity.
  - repeat constructor. simpl. discriminate.
Defined.

(* ===================================================================== *)
(** * The default rules                                                  *)
(* ===================================================================== *)

(** C8.  [setDefaultRules] issues AppendUnique calls only, for nat/INPUT
    "-j ACCEPT", nat/OUTPUT "-j ACCEPT" and nat/POSTROUTING
    "-s 10.0.0.0/8 -o <publicInterface> -j MASQUERADE" in that order: all
    three when none fails, and otherwise up to the first failing one,
    whose error it returns (wrapped by "iptables append: "); it never
    issues a Delete.  On such an error [updateNAT] returns it with nothing
    but those calls made, so the PREROUTING chain is neither listed nor
    changed. *)
Theorem setDefaultRules_calls {S} (ipt : IPTables S) (nl : Netlink)
    containers connections publicInterface (w : World S) :
  getPublicInterface nl = (publicInterface, None) →
  let r := setDefaultRules ipt publicInterface w in
  let three :=
    [ CallAppendUnique "nat" "INPUT" ["-j"; "ACCEPT"];
      CallAppendUnique "nat" "OUTPUT" ["-j"; "ACCEPT"];
      CallAppendUnique "nat" "POSTROUTING"
        ["-s"; "10.0.0.0/8"; "-o"; publicInterface; "-j"; "MASQUERADE"] ] in
  ∃ evs,
    trace r.2 = trace w ++ evs
    ∧ (ev_call <$> evs) `prefix_of` three
    ∧ Forall (λ ev, isDelete (ev_call ev) = false) evs
    ∧ match r.1 with
      | None => ev_call <$> evs = three ∧ quiet evs
      | Some e =>
          (∃ evs0 c e0,
              evs = evs0 ++ [{| ev_call := c; ev_err := Some e0 |}]
              ∧ quiet evs0 ∧ e = "iptables append: " +:+ e0)
          ∧ updateNAT ipt nl containers connections w = (Some e, r.2)
      end.
Proof.
  intros Hpi r three.
  destruct (forRange_logged "iptables append: "
              (λ x, CallAppendUnique (table x) (chain x) (ruleSpec x))
              (λ x, AppendUnique ipt (table x) (chain x) (ruleSpec x))
              (defaultRules publicInterface) w) as (evs & Ht & Hr).
  change (forRange _ _ w) with r in Ht, Hr.
  change (_ <$> defaultRules publicInterface) with three in Hr.
  exists evs. split; [done|].
  pose proof (loopRun_prefix _ _ _ _ Hr) as Hp. split; [done|]. split.
  - apply Forall_forall. intros ev Hev.
    assert (ev_call ev ∈ three) as Hin.
    { destruct Hp as [k ->]. apply elem_of_app. left.
      apply list_elem_of_fmap. eauto. }
    unfold three in Hin. rewrite !elem_of_cons, elem_of_nil in Hin.
    destruct Hin as [E|[E|[E|[]]]]; by rewrite E.
  - destruct r.1 as [e|] eqn:He.
    + split; [by apply loopRun_Some in Hr|].
      unfold updateNAT. rewrite Hpi. rewrite bind_run.
      change (setDefaultRules ipt publicInterface w) with r. by rewrite He.
    + by apply loopRun_None in Hr.
Qed.

Lemma setDefaultRules_calls_witness :
  (updateNAT fake.denied eth0 scenarioA_containers scenarioA_connections
     (fake.start staleChain)).1
  = Some "iptables append: permission denied".
Proof.
  destruct (setDefaultRules_calls fake.denied eth0 scenarioA_containers
              scenarioA_connections "eth0" (fake.start staleChain) eq_refl)
    as (evs & _ & _ & _ & Hr).
  assert ((setDefaultRules fake.denied "eth0" (fake.start staleChain)).1
          = Some "iptables append: permission denied") as E
    by (vm_compute; reflexivity).
  rewrite E in Hr. destruct Hr as [_ ->]. reflexivity.
Defined.

(* ===================================================================== *)
(** * Parsing the listing                                                *)
(* ===================================================================== *)

Lemma getRules_run {S} (ipt : IPTables S) table chain (w : World S) :
  let l := List ipt table chain (backend w) in
  getRules ipt table chain w =
  (match l.1.2 with
   | Some e => ([], Some e)
   | None => parseRules l.1.1 []
   end,
   {| backend := l.2;
      trace := trace w ++ [{| ev_call := CallList table chain;
                               ev_err := l.1.2 |}] |}).
Proof.
  unfold getRules, ipt_List. rewrite bind_run, logged_run. simpl.
  by destruct (List ipt table chain (backend w)) as [[raw [e|]] s'].
Qed.

Lemma parseRules_skip r rest rules :
  ¬ ruleLine r → parseRules (r :: rest) rules = parseRules rest rules.
Proof.
  unfold ruleLine. intros H. simpl.
  by destruct (gostrings.HasPrefix r "-A").
Qed.

Lemma parseRules_take r rest rules a b args :
  ruleLine r → threeFields r a b args →
  parseRules (r :: rest) rules = parseRules rest (rules ++ [args]).
Proof.
  unfold ruleLine. intros H F. apply SplitN3_fields in F.
  cbn [parseRules]. rewrite H, F. reflexivity.
Qed.

Lemma parseRules_malformed r rest rules :
  ruleLine r → ¬ wellFormed r →
  parseRules (r :: rest) rules = ([], Some ("malformed rule: " +:+ r)).
Proof.
  unfold ruleLine. intros H N. cbn [parseRules]. rewrite H. cbn [negb].
  destruct (gostrings.SplitN r " " 3) as [|a [|b [|c [|d l]]]] eqn:E; try done.
  destruct N. exists a, b, c. by apply SplitN3_fields.
Qed.

Lemma parseRules_error pre x post rules :
  Forall (λ y, ruleLine y → wellFormed y) pre → ruleLine x → ¬ wellFormed x →
  parseRules (pre ++ x :: post) rules = ([], Some ("malformed rule: " +:+ x)).
Proof.
  intros Hpre Hx Nx. revert rules.
  induction Hpre as [|y pre Hy _ IH]; intros rules.
  - by apply parseRules_malformed.
  - rewrite <-app_comm_cons. destruct (decide (ruleLine y)) as [Ry|Ry].
    + destruct (Hy Ry) as (a & b & args & F).
      rewrite (parseRules_take _ _ _ _ _ _ Ry F). apply IH.
    + rewrite parseRules_skip by done. apply IH.
Qed.

Lemma parseRules_ok raw rules :
  Forall (λ y, ruleLine y → wellFormed y) raw →
  ∃ new, parseRules raw rules = (rules ++ new, None)
         ∧ Forall2 (λ y rule, ∃ a b, threeFields y a b rule)
                   (filter ruleLine raw) new.
Proof.
  intros Hraw. revert rules.
  induction Hraw as [|y raw Hy _ IH]; intros rules.
  - exists []. simpl. rewrite app_nil_r. split; [done|constructor].
  - destruct (decide (ruleLine y)) as [Ry|Ry].
    + destruct (Hy Ry) as (a & b & args & F).
      rewrite (parseRules_take _ _ _ _ _ _ Ry F), filter_cons_True by done.
      destruct (IH (rules ++ [args])) as (new & -> & H2).
      exists (args :: new). rewrite <-app_assoc. split; [done|].
      constructor; eauto.
    + rewrite parseRules_skip, filter_cons_False by done. apply IH.
Qed.

(** C6.  [getRules] makes one List call.  When the listing comes back
    without error: a line that does not begin with "-A" is ignored; the
    first line that begins with "-A" and cannot be split into three
    space-separated fields makes the whole call return the error
    "malformed rule: <line>" and no rules; and when every "-A" line is well
    formed the result is, in order, the remainder of each "-A" line after
    its first two fields. *)
Theorem getRules_listing {S} (ipt : IPTables S) table chain (w : World S)
    raw s' :
  List ipt table chain (backend w) = ((raw, None), s') →
  let r := getRules ipt table chain w in
  r.2 = {| backend := s';
           trace := trace w ++ [{| ev_call := CallList table chain;
                                    ev_err := None |}] |}
  ∧ (∀ pre x post,
        raw = pre ++ x :: post →
        Forall (λ y, ruleLine y → wellFormed y) pre →
        ruleLine x → ¬ wellFormed x →
        r.1 = ([], Some ("malformed rule: " +:+ x)))
  ∧ (Forall (λ y, ruleLine y → wellFormed y) raw →
     ∃ rules, r.1 = (rules, None)
              ∧ Forall2 (λ y rule, ∃ a b, threeFields y a b rule)
                        (filter ruleLine raw) rules).
Proof.
  intros Hl r. subst r. rewrite getRules_run, Hl. simpl.
  split; [done|]. split.
  - intros pre x post -> Hpre Hx Nx. by apply parseRules_error.
  - intros Hraw. destruct (parseRules_ok raw [] Hraw) as (new & E & F).
    exists new. by rewrite E.
Qed.

Lemma getRules_listing_witness :
  (getRules (fake.listing ["-P PREROUTING ACCEPT"; "-A PREROUTING -j X";
                           "-A PREROUTING"; "-A PREROUTING -j Y"])
     "nat" "PREROUTING" {| backend := tt; trace := [] |}).1
  = ([], Some "malformed rule: -A PREROUTING").
Proof.
  refine (proj1 (proj2 (getRules_listing (fake.listing _) "nat" "PREROUTING"
                          {| backend := tt; trace := [] |} _ tt eq_refl))
            ["-P PREROUTING ACCEPT"; "-A PREROUTING -j X"]
            "-A PREROUTING" ["-A PREROUTING -j Y"] eq_refl _ eq_refl _).
  - repeat constructor.
    + intros H. discriminate H.
    + intros _. exists "-A", "PREROUTING", "-j X".
      split; [reflexivity|]. simpl. intuition discriminate.
  - intros (a & b & args & F). apply SplitN3_fields in F. discriminate F.
Defined.

(* ===================================================================== *)
(** * The chain synchroniser                                             *)
(* ===================================================================== *)

(** One run of [syncChain], phase by phase: the listing, then the loop of
    deletions over the lonely current rules, then, if that loop returned
    no error, the loop of additions over the lonely target rules. *)
Lemma syncChain_run {S} (ipt : IPTables S) table chain target (w : World S) :
  let g := getRules ipt table chain w in
  let r := syncChain ipt table chain target w in
  match g.1.2 with
  | Some e => r = (Some ("iptables get: " +:+ e), g.2)
  | None =>
      ∃ evsD errD evsA,
        trace r.2 = trace g.2 ++ evsD ++ evsA
        ∧ loopRun "iptables delete: "
            (deleteCall table chain <$> (join.HashJoin g.1.1 target).1.2)
            evsD errD
        ∧ match errD with
          | Some e => evsA = [] ∧ r.1 = Some e
          | None =>
              loopRun "iptables append: "
                (appendCall table chain <$> (join.HashJoin g.1.1 target).2)
                evsA r.1
          end
  end.
Proof.
  intros g r. subst r. unfold syncChain. rewrite bind_run. fold g.
  destruct g as [[curr [e|]] w1]; simpl; [done|].
  set (dels := remove_dups (list_difference curr target)).
  set (adds := remove_dups (list_difference target curr)).
  rewrite bind_run.
  destruct (forRange_logged "iptables delete: " (deleteCall table chain)
              (λ x, Delete ipt table chain (gostrings.Split x " ")) dels w1)
    as (evsD & HtD & HrD).
  unfold deleteCall in HtD, HrD at 2. unfold ipt_Delete.
  match type of HtD with trace ?d.2 = _ => set (D := d) in * end.
  destruct D.1 as [e|] eqn:HD.
  - exists evsD, (Some e), []. rewrite app_nil_r. done.
  - destruct (forRange_logged "iptables append: " (appendCall table chain)
                (λ x, Append ipt table chain (gostrings.Split x " ")) adds D.2)
      as (evsA & HtA & HrA).
    unfold appendCall in HtA, HrA at 2. unfold ipt_Append.
    exists evsD, None, evsA. rewrite HtA, HtD, <-app_assoc. done.
Qed.

Lemma loopRun_all (P : Call → Prop) pfx cs evs err :
  Forall P cs → loopRun pfx cs evs err → Forall (λ ev, P (ev_call ev)) evs.
Proof.
  intros HP R. apply loopRun_prefix in R as [k ->].
  rewrite Forall_app in HP. destruct HP as [HP _].
  by rewrite Forall_fmap in HP.
Qed.

(** C2.  In every run of [syncChain] the recorded calls are the List
    call, then Delete calls only, then Append calls only.  A call that
    returned an error is the last call of the run, and the run returns
    that error under the prefix of the call; so after a failed Delete no
    Append is made. *)
Theorem syncChain_deletes_before_appends {S} (ipt : IPTables S) table chain
    target (w : World S) :
  let r := syncChain ipt table chain target w in
  ∃ lst dels adds,
    trace r.2 = trace w ++ lst :: dels ++ adds
    ∧ ev_call lst = CallList table chain
    ∧ Forall (λ ev, isDelete (ev_call ev) = true) dels
    ∧ Forall (λ ev, isAppend (ev_call ev) = true) adds
    ∧ (∀ pre ev post e0,
          lst :: dels ++ adds = pre ++ ev :: post →
          ev_err ev = Some e0 →
          post = [] ∧ r.1 = Some (errorPrefix (ev_call ev) +:+ e0))
    ∧ (Exists (λ ev, ev_err ev ≠ None) dels → adds = []).
Proof.
  intros r. pose proof (syncChain_run ipt table chain target w) as H.
  cbv zeta in H. fold r in H.
  pose proof (getRules_run ipt table chain w) as Hg. cbv zeta in Hg.
  set (l := List ipt table chain (backend w)) in *.
  set (g := getRules ipt table chain w) in *.
  assert (trace g.2 = trace w ++ [{| ev_call := CallList table chain;
                                     ev_err := l.1.2 |}]) as Hgt
    by (by rewrite Hg).
  assert (∀ e0, l.1.2 = Some e0 → g.1.2 = Some e0) as Hge
    by (intros e0 E; by rewrite Hg, E).
  destruct g.1.2 as [e|] eqn:Hl.
  - exists {| ev_call := CallList table chain; ev_err := l.1.2 |}, [], [].
    rewrite H. simpl. split; [done|]. split; [done|].
    split; [constructor|]. split; [constructor|]. split.
    + intros pre ev post e0 E Hev.
      destruct pre as [|x pre]; simplify_eq/=; [|by destruct pre].
      split; [done|]. apply Hge in Hev. by simplify_eq.
    + by intros ?%Exists_nil.
  - destruct l.1.2 as [e0|] eqn:Hl0; [by specialize (Hge e0 eq_refl)|].
    destruct H as (evsD & errD & evsA & Ht & HrD & HA).
    exists {| ev_call := CallList table chain; ev_err := None |}, evsD, evsA.
    rewrite Ht, Hgt, <-app_assoc. split; [done|]. split; [done|].
    assert (Forall (λ ev, isDelete (ev_call ev) = true) evsD) as FD.
    { eapply (loopRun_all (λ c, isDelete c = true)); [|done].
      apply Forall_fmap, Forall_true. done. }
    assert (Forall (λ ev, isAppend (ev_call ev) = true) evsA) as FA.
    { destruct errD as [e|]; [by destruct HA as [-> _]|].
      eapply (loopRun_all (λ c, isAppend c = true)); [|done].
      apply Forall_fmap, Forall_true. done. }
    split; [done|]. split; [done|]. split.
    + intros pre ev post e0 E Hev.
      destruct pre as [|x pre]; simpl in E; [by simplify_eq/=|].
      injection E as _ E.
      apply app_eq_inv in E as [(k & -> & E)|(k & -> & E)].
      * destruct k as [|y k]; simpl in E.
        -- subst evsA. rewrite app_nil_r in *. destruct errD as [e|].
           ++ destruct HA as [HA _]. discriminate HA.
           ++ destruct (loopRun_failed_last _ _ _ _ [] ev post e0 HA eq_refl Hev)
                as [-> ->].
              rewrite Forall_cons in FA. destruct FA as [FA _].
              split; [done|]. by destruct (ev_call ev).
        -- injection E as <- ->.
           rewrite Forall_app, Forall_cons in FD. destruct FD as (_ & Fev & _).
           destruct (loopRun_failed_last _ _ _ _ pre ev k e0 HrD eq_refl Hev)
             as [-> ->].
           destruct HA as [-> ->]. split; [done|]. by destruct (ev_call ev).
      * destruct errD as [e|].
        -- destruct HA as [HA _]. rewrite HA in E. by destruct k.
        -- destruct (loopRun_failed_last _ _ _ _ k ev post e0 HA E Hev)
             as [-> ->].
           rewrite E, Forall_app, Forall_cons in FA.
           destruct FA as (_ & Fev & _).
           split; [done|]. by destruct (ev_call ev).
    + intros Hex. destruct errD as [e|]; [by destruct HA|].
      apply loopRun_None in HrD as [_ Q]. apply Exists_exists in Hex.
      destruct Hex as (ev & Hin & Hne).
      unfold quiet in Q. rewrite Forall_forall in Q. by destruct (Hne (Q _ Hin)).
Qed.

Lemma HashJoin_lonelyLefts curr target r :
  r ∈ (join.HashJoin curr target).1.2 ↔ r ∈ curr ∧ r ∉ target.
Proof. simpl. by rewrite elem_of_remove_dups, list_elem_of_difference. Qed.

Lemma HashJoin_lonelyRights curr target r :
  r ∈ (join.HashJoin curr target).2 ↔ r ∈ target ∧ r ∉ curr.
Proof. simpl. by rewrite elem_of_remove_dups, list_elem_of_difference. Qed.

Lemma HashJoin_NoDup curr target :
  NoDup (join.HashJoin curr target).1.2 ∧ NoDup (join.HashJoin curr target).2.
Proof. split; apply NoDup_remove_dups. Qed.

Lemma filter_all {A} (P : A → Prop) `{∀ x, Decision (P x)} (l : list A) :
  Forall P l → filter P l = l.
Proof.
  induction 1 as [|x l Hx _ IH]; [done|].
  by rewrite filter_cons_True, IH.
Qed.

Lemma filter_isMutation table chain (dels adds : list string) :
  filter (λ c, isMutation c = true)
    (CallList table chain
       :: (deleteCall table chain <$> dels) ++ (appendCall table chain <$> adds))
  = (deleteCall table chain <$> dels) ++ (appendCall table chain <$> adds).
Proof.
  rewrite filter_cons_False by (simpl; done).
  apply filter_all, Forall_app. split; apply Forall_fmap, Forall_true; done.
Qed.

(** C1.  Let [curr] be the rules [getRules] reads from the chain, and let
    the run of [syncChain] return nil.  Then, after the List call, the run
    issued one Delete for each rule of [curr] absent from [target] and no
    other Delete, then one Append for each rule of [target] absent from
    [curr] and no other Append; a rule present in both is neither deleted
    nor appended.  The number of mutations equals the size of the
    symmetric difference of the two rule sets, and when the two sets are
    equal no mutation is issued. *)
Theorem syncChain_edit_script {S} (ipt : IPTables S) table chain target
    (w w1 w' : World S) curr :
  getRules ipt table chain w = ((curr, None), w1) →
  syncChain ipt table chain target w = (None, w') →
  ∃ evs dels adds,
    trace w' = trace w ++ evs
    ∧ quiet evs
    ∧ ev_call <$> evs =
        CallList table chain
          :: (deleteCall table chain <$> dels)
          ++ (appendCall table chain <$> adds)
    ∧ NoDup dels ∧ NoDup adds
    ∧ (∀ r, r ∈ dels ↔ r ∈ curr ∧ r ∉ target)
    ∧ (∀ r, r ∈ adds ↔ r ∈ target ∧ r ∉ curr)
    ∧ (∀ r, r ∈ curr → r ∈ target →
            (deleteCall table chain r ∉ ev_call <$> evs)
            ∧ (appendCall table chain r ∉ ev_call <$> evs))
    ∧ length (filter (λ c, isMutation c = true) (ev_call <$> evs))
      = size ((list_to_set curr ∖ list_to_set target)
              ∪ (list_to_set target ∖ list_to_set curr) : gset string)
    ∧ (list_to_set curr =@{gset string} list_to_set target →
       filter (λ c, isMutation c = true) (ev_call <$> evs) = []).
Proof.
  intros Hg Hr.
  pose proof (syncChain_run ipt table chain target w) as H.
  pose proof (getRules_run ipt table chain w) as Hl.
  cbv zeta in H, Hl. rewrite Hg in Hl. rewrite Hg, Hr in H. simpl in H.
  destruct H as (evsD & errD & evsA & Ht & HrD & HA).
  destruct errD as [e|]; [by destruct HA|].
  apply loopRun_None in HrD as [ED QD]. apply loopRun_None in HA as [EA QA].
  set (l := List ipt table chain (backend w)) in *.
  assert (l.1.2 = None ∧
          trace w1 = trace w ++ [{| ev_call := CallList table chain;
                                    ev_err := None |}]) as [_ Hw1].
  { destruct l.1.2 as [e|]; simplify_eq/=. done. }
  set (dels := remove_dups (list_difference curr target)) in *.
  set (adds := remove_dups (list_difference target curr)) in *.
  exists ({| ev_call := CallList table chain; ev_err := None |} :: evsD ++ evsA),
         dels, adds.
  assert (ev_call <$> ({| ev_call := CallList table chain; ev_err := None |}
                         :: evsD ++ evsA)
          = CallList table chain :: (deleteCall table chain <$> dels)
              ++ (appendCall table chain <$> adds)) as Hcalls.
  { by rewrite fmap_cons, fmap_app, ED, EA. }
  assert (∀ r, r ∈ dels ↔ r ∈ curr ∧ r ∉ target) as Hd
    by apply HashJoin_lonelyLefts.
  assert (∀ r, r ∈ adds ↔ r ∈ target ∧ r ∉ curr) as Ha
    by apply HashJoin_lonelyRights.
  assert (NoDup dels ∧ NoDup adds) as [Nd Na] by apply HashJoin_NoDup.
  rewrite Hcalls, filter_isMutation.
  split. { rewrite Ht, Hw1, <-app_assoc. done. }
  split. { constructor; [done|]. by apply Forall_app. }
  split; [done|]. split; [done|]. split; [done|]. split; [done|].
  split; [done|]. split; [|split].
  - intros r Hc Ht'. rewrite !elem_of_cons, !elem_of_app. split.
    + intros [E|[E|E]]; [done| |].
      * apply list_elem_of_fmap in E as (r' & E & Hin).
        injection E as E. apply Split_inj in E as <-.
        apply Hd in Hin. tauto.
      * apply list_elem_of_fmap in E as (r' & E & Hin). discriminate E.
    + intros [E|[E|E]]; [done| |].
      * apply list_elem_of_fmap in E as (r' & E & Hin). discriminate E.
      * apply list_elem_of_fmap in E as (r' & E & Hin).
        injection E as E. apply Split_inj in E as <-.
        apply Ha in Hin. tauto.
  - rewrite length_app, !length_fmap.
    rewrite size_union
      by (intros r; rewrite !elem_of_difference; tauto).
    rewrite <-(size_list_to_set (C := gset string) dels) by done.
    rewrite <-(size_list_to_set (C := gset string) adds) by done.
    f_equal; f_equal; apply set_eq; intros r;
      rewrite elem_of_difference, !elem_of_list_to_set; [apply Hd|apply Ha].
  - intros Heq.
    assert (∀ r, r ∈ curr ↔ r ∈ target) as Hiff.
    { intros r. rewrite <-!(elem_of_list_to_set (C := gset string)).
      by rewrite Heq. }
    assert (dels = []) as ->.
    { apply elem_of_nil_inv. intros r Hin. apply Hd in Hin as [Hc Hn].
      by apply Hn, Hiff. }
    assert (adds = []) as ->; [|done].
    apply elem_of_nil_inv. intros r Hin. apply Ha in Hin as [Hc Hn].
    by apply Hn, Hiff.
Qed.

Lemma syncChain_edit_script_witness :
  ∃ evs,
    trace (syncChain fake.ipt "nat" "PREROUTING" targetA
             (fake.start staleChain)).2 = evs
    ∧ length (filter (λ c, isMutation c = true) (ev_call <$> evs)) = 2.
Proof.
  destruct (syncChain_edit_script fake.ipt "nat" "PREROUTING" targetA
              (fake.start staleChain)
              (getRules fake.ipt "nat" "PREROUTING" (fake.start staleChain)).2
              (syncChain fake.ipt "nat" "PREROUTING" targetA
                 (fake.start staleChain)).2
              staleRules)
    as (evs & dels & adds & Ht & _ & _ & _ & _ & _ & _ & _ & Hsize & _).
  - vm_compute. reflexivity.
  - vm_compute. reflexivity.
  - exists evs. split; [exact Ht|]. rewrite Hsize. vm_compute. reflexivity.
Defined.

(** Scenario C on the in-memory adapter: the stale rule is deleted, then
    the missing rule is appended; a second run on the resulting chain
    issues no mutation. *)
Example syncChain_scenarioC :
  let r := syncChain fake.ipt "nat" "PREROUTING" targetA
             (fake.start staleChain) in
  r.1 = None
  ∧ ev_call <$> trace r.2 =
      [ CallList "nat" "PREROUTING";
        CallDelete "nat" "PREROUTING"
          ["-i"; "eth0"; "-p"; "tcp"; "-m"; "tcp"; "--dport"; "80";
           "-j"; "DNAT"; "--to-destination"; "10.0.0.9:80"];
        CallAppend "nat" "PREROUTING"
          ["-i"; "eth0"; "-p"; "tcp"; "-m"; "tcp"; "--dport"; "80";
           "-j"; "DNAT"; "--to-destination"; "10.0.0.5:80"] ]
  ∧ ev_call <$> trace (syncChain fake.ipt "nat" "PREROUTING" targetA
                         (fake.start (backend r.2))).2
    = [ CallList "nat" "PREROUTING" ].
Proof. vm_compute. repeat split. Qed.

(** A run against an adapter that refuses mutations stops at the first
    Delete. *)
Example syncChain_denied :
  let r := syncChain fake.denied "nat" "PREROUTING" targetA
             (fake.start staleChain) in
  r.1 = Some "iptables delete: permission denied"
  ∧ length (trace r.2) = 2.
Proof. vm_compute. split; reflexivity. Qed.

(* ===================================================================== *)
(** * The port map of the compiler                                       *)
(* ===================================================================== *)

Lemma recordPort_lookup m ip port ip' :
  recordPort m ip port !! ip' =
  if decide (ip = ip') then Some ({[port]} ∪ portsAt m ip) else m !! ip'.
Proof.
  unfold recordPort, portsAt. rewrite lookup_insert.
  destruct (decide (ip = ip')) as [->|Hne].
  - destruct (m !! ip') eqn:E; [by rewrite E|].
    rewrite lookup_insert_eq. done.
  - destruct (m !! ip) eqn:E; [done|]. by rewrite lookup_insert_ne.
Qed.

Lemma recordPort_spec m ip port :
  inhabitedPorts m →
  inhabitedPorts (recordPort m ip port)
  ∧ ∀ ip' p, p ∈ portsAt (recordPort m ip port) ip'
             ↔ p ∈ portsAt m ip' ∨ (ip' = ip ∧ p = port).
Proof.
  intros Hm. split.
  - intros ip' ports. rewrite recordPort_lookup.
    destruct (decide (ip = ip')) as [->|Hne]; [|apply Hm].
    intros [= <-]. set_solver.
  - intros ip' p. unfold portsAt at 1. rewrite recordPort_lookup.
    destruct (decide (ip = ip')) as [->|Hne]; simpl.
    + set_solver.
    + fold (portsAt m ip'). naive_solver.
Qed.

(** A loop whose body adds the pairs [R x] for the element [x] adds the
    pairs of all elements. *)
Lemma foldl_collect {A} (f : gmap string (gset Z) → A → gmap string (gset Z))
    (R : A → string → Z → Prop) :
  (∀ m x, inhabitedPorts m →
     inhabitedPorts (f m x)
     ∧ ∀ ip p, p ∈ portsAt (f m x) ip ↔ p ∈ portsAt m ip ∨ R x ip p) →
  ∀ l m, inhabitedPorts m →
     inhabitedPorts (foldl f m l)
     ∧ ∀ ip p, p ∈ portsAt (foldl f m l) ip
               ↔ p ∈ portsAt m ip ∨ ∃ x, x ∈ l ∧ R x ip p.
Proof.
  intros Hf l. induction l as [|x l IH]; intros m Hm; simpl.
  - split; [done|]. intros ip p. split; [tauto|].
    intros [?|(x & Hx & _)]; [done|]. by apply elem_of_nil in Hx.
  - destruct (Hf m x Hm) as [Hm' Hp']. destruct (IH _ Hm') as [Hm'' Hp''].
    split; [done|]. intros ip p. rewrite Hp'', Hp'. split.
    + intros [[?|?]|(y & Hy & ?)]; [tauto| |].
      * right. exists x. split; [left|done].
      * right. exists y. split; [by right|done].
    + intros [?|(y & Hy & ?)]; [tauto|].
      apply elem_of_cons in Hy as [->|Hy]; [tauto|]. right. eauto.
Qed.

Lemma portsFromWeb_spec containers connections :
  inhabitedPorts (portsFromWeb containers connections)
  ∧ ∀ ip p, p ∈ portsAt (portsFromWeb containers connections) ip
            ↔ collected containers connections ip p.
Proof.
  unfold portsFromWeb.
  match goal with |- context [foldl ?f ∅ containers] =>
    pose proof (foldl_collect f
      (λ dbc ip p, ∃ conn, conn ∈ connections
         ∧ db.From conn = stitch.PublicInternetLabel
         ∧ db.To conn ∈ db.Labels dbc ∧ db.IP dbc = ip
         ∧ db.MinPort conn = p)) as H
  end.
  destruct (H) with (l := containers) (m := (∅ : gmap string (gset Z)))
    as [Hi Hp].
  - clear H. intros m dbc Hm.
    match goal with |- context [foldl ?f m connections] =>
      pose proof (foldl_collect f
        (λ conn ip p, db.From conn = stitch.PublicInternetLabel
           ∧ db.To conn ∈ db.Labels dbc ∧ db.IP dbc = ip
           ∧ db.MinPort conn = p)) as H
    end.
    destruct (H) with (l := connections) (m := m) as [Hi Hp]; [|done|].
    + clear H Hm m. intros m conn Hm. case_bool_decide as Hfrom.
      { split; [done|]. intros ip p. naive_solver. }
      match goal with |- context [foldl ?f m (db.Labels dbc)] =>
        pose proof (foldl_collect f
          (λ l ip p, db.To conn = l ∧ db.IP dbc = ip
                     ∧ db.MinPort conn = p)) as H
      end.
      destruct (H) with (l := db.Labels dbc) (m := m) as [Hi Hp]; [|done|].
      * clear H Hm m. intros m l Hm. case_bool_decide as Hto.
        { split; [done|]. intros ip p. naive_solver. }
        destruct (recordPort_spec m (db.IP dbc) (db.MinPort conn) Hm)
          as [Hi Hp].
        split; [done|]. intros ip p. rewrite Hp. naive_solver.
      * split; [done|]. intros ip p. rewrite Hp. naive_solver.
    + split; [done|]. intros ip p. rewrite Hp. naive_solver.
  - intros ip ports. by rewrite lookup_empty.
  - split; [done|]. intros ip p. rewrite Hp. unfold collected, portsAt.
    rewrite lookup_empty. simpl. split.
    + intros [?|(dbc & ? & conn & ?)]; [set_solver|]. exists dbc, conn. tauto.
    + intros (dbc & conn & ?). right. exists dbc. split; [tauto|].
      exists conn. tauto.
Qed.

(** Two port maps without empty entries that hold the same pairs are the
    same map. *)
Lemma ports_ext (m1 m2 : gmap string (gset Z)) :
  inhabitedPorts m1 → inhabitedPorts m2 →
  (∀ ip p, p ∈ portsAt m1 ip ↔ p ∈ portsAt m2 ip) → m1 = m2.
Proof.
  intros H1 H2 H. apply map_eq. intros ip. specialize (H ip).
  unfold portsAt in H.
  destruct (m1 !! ip) as [s1|] eqn:E1, (m2 !! ip) as [s2|] eqn:E2; simpl in H.
  - f_equal. by apply set_eq.
  - destruct (H1 _ _ E1). apply set_eq. intros p. rewrite H. done.
  - destruct (H2 _ _ E2). apply set_eq. intros p. rewrite <-H. done.
  - done.
Qed.

Lemma collected_perm cs cs' conns conns' ip p :
  cs ≡ₚ cs' → conns ≡ₚ conns' →
  collected cs conns ip p ↔ collected cs' conns' ip p.
Proof.
  intros Hc Hn. unfold collected.
  by setoid_rewrite Hc; setoid_rewrite Hn.
Qed.

Lemma portsFromWeb_perm cs cs' conns conns' :
  cs ≡ₚ cs' → conns ≡ₚ conns' →
  portsFromWeb cs conns = portsFromWeb cs' conns'.
Proof.
  intros Hc Hn.
  destruct (portsFromWeb_spec cs conns) as [H1 P1].
  destruct (portsFromWeb_spec cs' conns') as [H2 P2].
  apply ports_ext; [done..|]. intros ip p. rewrite P1, P2.
  by apply collected_perm.
Qed.

(* ===================================================================== *)
(** * Rendering of a rule                                                *)
(* ===================================================================== *)

Lemma pretty_N_char_no_space x : pretty_N_char x ≠ " "%char.
Proof. unfold pretty_N_char. by repeat case_match. Qed.

Lemma pretty_N_go_no_space x s :
  ¬ occurs " " s → ¬ occurs " " (pretty_N_go x s).
Proof.
  revert s. induction (N.lt_wf_0 x) as [x _ IH]; intros s Hs.
  assert (x = 0 ∨ 0 < x)%N as [->|Hx] by lia.
  - by rewrite pretty_N_go_0.
  - rewrite pretty_N_go_step by done. apply IH.
    + by apply N.div_lt.
    + simpl. intros [E|?]; [|done]. by apply pretty_N_char_no_space in E.
Qed.

(** The decimal rendering of an integer contains no space. *)
Lemma pretty_Z_no_space (z : Z) : ¬ occurs " " (pretty z).
Proof.
  assert (∀ p : positive, ¬ occurs " " (pretty p)) as Hp.
  { intros p. unfold pretty, pretty_positive, pretty, pretty_N.
    case_decide; [done|]. apply pretty_N_go_no_space. simpl. tauto. }
  destruct z as [|p|p]; unfold pretty, pretty_Z.
  - simpl. intuition discriminate.
  - apply Hp.
  - simpl. intros [E|?]; [discriminate E|]. by apply (Hp p).
Qed.

Lemma append_inj_r (a b c : string) : a +:+ c = b +:+ c → a = b.
Proof.
  revert b. induction a as [|x a IH]; intros [|y b] E; simpl in E.
  - done.
  - apply (f_equal String.length) in E. simpl in E.
    rewrite length_append in E. lia.
  - apply (f_equal String.length) in E. simpl in E.
    rewrite length_append in E. lia.
  - injection E as -> E. f_equal. by apply IH.
Qed.

(** For a fixed interface the rendering determines the protocol, the port
    and the address. *)
Lemma dnatRule_inj pi proto1 port1 ip1 proto2 port2 ip2 :
  proto1 ∈ protocols → proto2 ∈ protocols →
  dnatRule pi proto1 port1 ip1 = dnatRule pi proto2 port2 ip2 →
  proto1 = proto2 ∧ port1 = port2 ∧ ip1 = ip2.
Proof.
  unfold protocols, dnatRule. rewrite !elem_of_cons, !elem_of_nil.
  intros H1 H2 E. simpl in E. injection E as E.
  apply (inj (String.app pi)) in E.
  assert (proto1 = proto2 ∧
          pretty port1 +:+ " -j DNAT --to-destination " +:+ ip1 +:+ ":"
            +:+ pretty port1
          = pretty port2 +:+ " -j DNAT --to-destination " +:+ ip2 +:+ ":"
            +:+ pretty port2) as [-> E'].
  { destruct H1 as [->|[->|[]]], H2 as [->|[->|[]]]; simpl in E;
      by simplify_eq. }
  split; [done|]. simpl in E'.
  apply first_occurrence_unique in E' as [Hport E'];
    [|apply pretty_Z_no_space..].
  apply (inj pretty) in Hport as ->. split; [done|].
  simpl in E'. simplify_eq. by eapply append_inj_r.
Qed.

(* ===================================================================== *)
(** * The emitted rules                                                  *)
(* ===================================================================== *)

Lemma elem_of_emitRules pi (m : gmap string (gset Z)) r :
  r ∈ emitRules pi m ↔
  ∃ ip port proto, port ∈ portsAt m ip ∧ proto ∈ protocols
                   ∧ r = dnatRule pi proto port ip.
Proof.
  unfold emitRules. rewrite list_elem_of_bind. split.
  - intros ([ip ports] & Hr & Hm). apply elem_of_map_to_list in Hm.
    apply list_elem_of_bind in Hr as (port & Hr & Hport).
    apply elem_of_elements in Hport.
    apply list_elem_of_bind in Hr as (proto & Hr & Hproto).
    apply list_elem_of_singleton in Hr. exists ip, port, proto.
    unfold portsAt. rewrite Hm. done.
  - intros (ip & port & proto & Hport & Hproto & ->). unfold portsAt in Hport.
    destruct (m !! ip) as [ports|] eqn:Hm; simpl in Hport;
      [|by apply not_elem_of_empty in Hport].
    exists (ip, ports). split; [|by apply elem_of_map_to_list].
    apply list_elem_of_bind. exists port. split; [|by apply elem_of_elements].
    apply list_elem_of_bind. exists proto. split; [|done].
    by apply list_elem_of_singleton.
Qed.

Lemma NoDup_emitRules pi (m : gmap string (gset Z)) : NoDup (emitRules pi m).
Proof.
  unfold emitRules. apply NoDup_bind; [| |apply NoDup_map_to_list].
  - intros [ip1 ports1] [ip2 ports2] r H1 H2 Hr1 Hr2.
    apply elem_of_map_to_list in H1, H2.
    apply list_elem_of_bind in Hr1 as (p1 & Hr1 & _).
    apply list_elem_of_bind in Hr1 as (q1 & Hr1 & Hq1).
    apply list_elem_of_bind in Hr2 as (p2 & Hr2 & _).
    apply list_elem_of_bind in Hr2 as (q2 & Hr2 & Hq2).
    apply list_elem_of_singleton in Hr1, Hr2. subst r.
    apply dnatRule_inj in Hr2 as (_ & _ & ->); [|done..].
    by simplify_eq.
  - intros [ip ports] _. apply NoDup_bind; [| |apply NoDup_elements].
    + intros p1 p2 r _ _ Hr1 Hr2.
      apply list_elem_of_bind in Hr1 as (q1 & Hr1 & Hq1).
      apply list_elem_of_bind in Hr2 as (q2 & Hr2 & Hq2).
      apply list_elem_of_singleton in Hr1, Hr2. subst r.
      by apply dnatRule_inj in Hr2 as (_ & -> & _).
    + intros port _. apply NoDup_bind.
      * intros q1 q2 r Hq1 Hq2 Hr1 Hr2.
        apply list_elem_of_singleton in Hr1, Hr2. subst r.
        by apply dnatRule_inj in Hr2 as (-> & _ & _).
      * intros q _. apply NoDup_singleton.
      * unfold protocols. apply NoDup_cons. split; [|apply NoDup_singleton].
        rewrite list_elem_of_singleton. discriminate.
Qed.

Lemma elem_of_routingRules pi containers connections r :
  r ∈ routingRules pi containers connections ↔
  ∃ ip port proto, collected containers connections ip port
                   ∧ proto ∈ protocols ∧ r = dnatRule pi proto port ip.
Proof.
  unfold routingRules. rewrite elem_of_emitRules.
  destruct (portsFromWeb_spec containers connections) as [_ Hp].
  split; intros (ip & port & proto & H & ?); exists ip, port, proto;
    (split; [by apply Hp|done]).
Qed.

(* ===================================================================== *)
(** * The compiled target set                                            *)
(* ===================================================================== *)

(** C3.  In scenario A (one connection from "public" to "web" on port 80,
    one container labelled "web" at 10.0.0.5) the compiled rules are
    exactly the TCP rule and the UDP rule
    "-i <publicInterface> -p <proto> -m <proto> --dport 80 -j DNAT
    --to-destination 10.0.0.5:80".  In general the compiled list has no
    duplicates, and its members are exactly the rules of that shape for a
    collected (address, port) pair and a protocol among tcp and udp: one
    rule per pair and protocol, redirecting to the same port. *)
Theorem routingRules_one_rule_per_protocol pi containers connections :
  routingRules pi scenarioA_containers scenarioA_connections =
    [ "-i " +:+ pi
        +:+ " -p tcp -m tcp --dport 80 -j DNAT --to-destination 10.0.0.5:80";
      "-i " +:+ pi
        +:+ " -p udp -m udp --dport 80 -j DNAT --to-destination 10.0.0.5:80" ]
  ∧ NoDup (routingRules pi containers connections)
  ∧ (∀ r, r ∈ routingRules pi containers connections ↔
          ∃ ip port proto,
            collected containers connections ip port
            ∧ proto ∈ ["tcp"; "udp"]
            ∧ r = "-i " +:+ pi +:+ " -p " +:+ proto +:+ " -m " +:+ proto
                  +:+ " --dport " +:+ pretty port
                  +:+ " -j DNAT --to-destination " +:+ ip +:+ ":"
                  +:+ pretty port).
Proof.
  split; [|split].
  - vm_compute. reflexivity.
  - apply NoDup_emitRules.
  - intros r. apply elem_of_routingRules.
Qed.

(** C9.  Permuting the container list or the connection list leaves the
    compiled rules unchanged up to order: the two results are permutations
    of each other, hence equal as sets of rule strings. *)
Theorem routingRules_permutation pi containers containers' connections
    connections' :
  containers ≡ₚ containers' → connections ≡ₚ connections' →
  routingRules pi containers connections
    ≡ₚ routingRules pi containers' connections'
  ∧ (∀ r, r ∈ routingRules pi containers connections
          ↔ r ∈ routingRules pi containers' connections').
Proof.
  intros Hc Hn. unfold routingRules.
  by rewrite (portsFromWeb_perm _ _ _ _ Hc Hn).
Qed.

Lemma routingRules_permutation_witness :
  routingRules "eth0" scenarioE_containers scenarioE_connections
    ≡ₚ routingRules "eth0" (reverse scenarioE_containers)
         (reverse scenarioE_connections).
Proof.
  apply (routingRules_permutation "eth0" scenarioE_containers
           (reverse scenarioE_containers) scenarioE_connections
           (reverse scenarioE_connections)).
  - apply perm_swap.
  - apply perm_swap.
Defined.

Lemma collected_tickContainers tbl connections ip port :
  collected (tickContainers tbl) connections ip port ↔
  collected tbl connections ip port ∧ ip ≠ EmptyString.
Proof.
  unfold collected, tickContainers, db.SelectFromContainer.
  split.
  - intros (dbc & conn & Hd & Hc & Hf & Ht & <- & Hp).
    apply list_elem_of_In, filter_In in Hd as [Hd Hip].
    apply list_elem_of_In in Hd.
    split; [by exists dbc, conn|].
    intros E. rewrite E in Hip. discriminate Hip.
  - intros [(dbc & conn & Hd & Hc & Hf & Ht & <- & Hp) Hip].
    exists dbc, conn. split; [|done].
    apply list_elem_of_In, filter_In. split; [by apply list_elem_of_In|].
    by destruct (String.eqb_spec (db.IP dbc) EmptyString).
Qed.

(** C4.  The snapshot of a tick keeps only the containers with a
    non-empty address, so: scenario B compiles to no rule; every compiled
    rule redirects to the address of a container whose address is not
    empty; and a container with empty address in the table changes
    nothing in the compiled rules. *)
Theorem tickContainers_exclude_empty pi tbl connections :
  routingRules pi (tickContainers scenarioB_containers) scenarioA_connections
    = []
  ∧ (∀ r, r ∈ routingRules pi (tickContainers tbl) connections →
          ∃ dbc conn proto,
            dbc ∈ tbl ∧ db.IP dbc ≠ EmptyString ∧ conn ∈ connections
            ∧ db.From conn = stitch.PublicInternetLabel
            ∧ db.To conn ∈ db.Labels dbc ∧ proto ∈ protocols
            ∧ r = dnatRule pi proto (db.MinPort conn) (db.IP dbc))
  ∧ (∀ dbc pre post,
        db.IP dbc = EmptyString →
        routingRules pi (tickContainers (pre ++ dbc :: post)) connections
        = routingRules pi (tickContainers (pre ++ post)) connections).
Proof.
  split; [|split].
  - vm_compute. reflexivity.
  - intros r (ip & port & proto & Hc & Hproto & ->)%elem_of_routingRules.
    apply collected_tickContainers in Hc
      as [(dbc & conn & Hd & Hc & Hf & Ht & <- & <-) Hip].
    by exists dbc, conn, proto.
  - intros dbc pre post Hip. f_equal.
    unfold tickContainers, db.SelectFromContainer.
    rewrite !List.filter_app. simpl. by rewrite Hip.
Qed.

(** The exclusion is made by the snapshot: [routingRules] itself, given
    the container without address, emits rules with an empty address. *)
Example routingRules_unfiltered_B :
  routingRules "eth0" scenarioB_containers scenarioA_connections =
  [ "-i eth0 -p tcp -m tcp --dport 80 -j DNAT --to-destination :80";
    "-i eth0 -p udp -m udp --dport 80 -j DNAT --to-destination :80" ].
Proof. vm_compute. reflexivity. Qed.

(** One tick of a ready worker reconciles against that snapshot. *)
Lemma runNatTick_worker {S} (ipt : IPTables S) minion tbl connections nl w :
  db.SupervisorInit minion = true → db.MinionRole minion = db.Worker →
  (runNatTick ipt (minion, None) tbl connections None nl w).2
  = (updateNAT ipt nl (tickContainers tbl) connections w).2.
Proof.
  intros Hi Hr. unfold runNatTick. rewrite Hi, Hr. simpl.
  by rewrite bind_run.
Qed.

Lemma collected_withMaxPort (f : db.Connection → Z) containers connections
    ip port :
  collected containers ((λ c, withMaxPort (f c) c) <$> connections) ip port
  ↔ collected containers connections ip port.
Proof.
  unfold collected. split.
  - intros (dbc & conn & Hd & Hc & H).
    apply list_elem_of_fmap in Hc as (conn0 & -> & Hc). by exists dbc, conn0.
  - intros (dbc & conn & Hd & Hc & H).
    exists dbc, (withMaxPort (f conn) conn). split; [done|].
    split; [|done]. apply list_elem_of_fmap. eauto.
Qed.

Lemma routingRules_nil_connections pi containers :
  routingRules pi containers [] = [].
Proof.
  apply elem_of_nil_inv. intros r Hr.
  apply elem_of_routingRules in Hr as (ip & port & _ & Hc & _).
  destruct Hc as (_ & conn & _ & Hc & _). by apply elem_of_nil in Hc.
Qed.

Lemma collected_insert containers pre conn post ip port :
  collected containers (pre ++ conn :: post) ip port ↔
  collected containers (pre ++ post) ip port
  ∨ (db.From conn = stitch.PublicInternetLabel ∧ db.MinPort conn = port
     ∧ ∃ dbc, dbc ∈ containers ∧ db.To conn ∈ db.Labels dbc
              ∧ db.IP dbc = ip).
Proof.
  unfold collected. split.
  - intros (dbc & conn' & Hd & Hc & Hf & Ht & Hip & Hp).
    rewrite elem_of_app, elem_of_cons in Hc.
    destruct Hc as [Hc|[->|Hc]].
    + left. exists dbc, conn'. split; [done|]. split; [|done].
      rewrite elem_of_app. tauto.
    + right. split; [done|]. split; [done|]. by exists dbc.
    + left. exists dbc, conn'. split; [done|]. split; [|done].
      rewrite elem_of_app. tauto.
  - intros [(dbc & conn' & Hd & Hc & H)|(Hf & Hp & dbc & Hd & Ht & Hip)].
    + exists dbc, conn'. split; [done|]. split; [|done].
      rewrite elem_of_app, elem_of_cons. rewrite elem_of_app in Hc. tauto.
    + exists dbc, conn. split; [done|]. split; [|done].
      rewrite elem_of_app, elem_of_cons. tauto.
Qed.

(** C5 (as amended).  Let [conn] be a connection from the public internet
    with MinPort < MaxPort, anywhere in the connection list.  What [conn]
    contributes is exactly the rules for its MinPort: the compiled rules
    are those compiled without [conn] together with the TCP and UDP rule
    for MinPort on the address of every container carrying the
    destination label, and these rules are emitted.  A rule for a port in
    (MinPort, MaxPort] is emitted only if the other connections already
    produce it; for [conn] alone the rules are exactly the MinPort rules,
    no rule references a port in (MinPort, MaxPort], and the port map
    holds exactly the entry {MinPort} for every matching container
    address.  The maximum ports never influence the result. *)
Theorem routingRules_min_port_only pi containers pre conn post :
  db.From conn = stitch.PublicInternetLabel →
  (db.MinPort conn < db.MaxPort conn)%Z →
  let connections := pre ++ conn :: post in
  (∀ r, r ∈ routingRules pi containers connections ↔
        r ∈ routingRules pi containers (pre ++ post)
        ∨ ∃ dbc proto, dbc ∈ containers ∧ db.To conn ∈ db.Labels dbc
                       ∧ proto ∈ protocols
                       ∧ r = dnatRule pi proto (db.MinPort conn) (db.IP dbc))
  ∧ (∀ dbc proto,
        dbc ∈ containers → db.To conn ∈ db.Labels dbc → proto ∈ protocols →
        dnatRule pi proto (db.MinPort conn) (db.IP dbc)
          ∈ routingRules pi containers connections)
  ∧ (∀ proto port ip,
        proto ∈ protocols → (db.MinPort conn < port ≤ db.MaxPort conn)%Z →
        dnatRule pi proto port ip ∈ routingRules pi containers connections →
        dnatRule pi proto port ip ∈ routingRules pi containers (pre ++ post)
        ∧ ∃ conn', conn' ∈ pre ++ post
                   ∧ db.From conn' = stitch.PublicInternetLabel
                   ∧ db.MinPort conn' = port)
  ∧ (∀ r, r ∈ routingRules pi containers [conn] ↔
          ∃ dbc proto, dbc ∈ containers ∧ db.To conn ∈ db.Labels dbc
                       ∧ proto ∈ protocols
                       ∧ r = dnatRule pi proto (db.MinPort conn) (db.IP dbc))
  ∧ (∀ proto port ip,
        proto ∈ protocols → (db.MinPort conn < port ≤ db.MaxPort conn)%Z →
        dnatRule pi proto port ip ∉ routingRules pi containers [conn])
  ∧ (∀ dbc, dbc ∈ containers → db.To conn ∈ db.Labels dbc →
            portsFromWeb containers [conn] !! db.IP dbc
            = Some {[db.MinPort conn]})
  ∧ (∀ f : db.Connection → Z,
        routingRules pi containers ((λ c, withMaxPort (f c) c) <$> connections)
        ≡ₚ routingRules pi containers connections).
Proof.
  intros Hfrom Hlt connections.
  assert (∀ pre' post' r,
            r ∈ routingRules pi containers (pre' ++ conn :: post') ↔
            r ∈ routingRules pi containers (pre' ++ post')
            ∨ ∃ dbc proto, dbc ∈ containers ∧ db.To conn ∈ db.Labels dbc
                ∧ proto ∈ protocols
                ∧ r = dnatRule pi proto (db.MinPort conn) (db.IP dbc))
    as Hins.
  { intros pre' post' r. rewrite !elem_of_routingRules. split.
    - intros (ip & port & proto & Hc & Hp & ->).
      apply collected_insert in Hc as [Hc|(_ & <- & dbc & Hd & Ht & <-)].
      + left. by exists ip, port, proto.
      + right. by exists dbc, proto.
    - intros [(ip & port & proto & Hc & Hp & ->)
             |(dbc & proto & Hd & Ht & Hp & ->)].
      + exists ip, port, proto. split; [|done].
        apply collected_insert. by left.
      + exists (db.IP dbc), (db.MinPort conn), proto. split; [|done].
        apply collected_insert. right. split; [done|]. split; [done|].
        by exists dbc. }
  assert (∀ r, r ∈ routingRules pi containers [conn] ↔
             ∃ dbc proto, dbc ∈ containers ∧ db.To conn ∈ db.Labels dbc
                 ∧ proto ∈ protocols
                 ∧ r = dnatRule pi proto (db.MinPort conn) (db.IP dbc))
    as Halone.
  { intros r. rewrite (Hins [] [] r). simpl.
    rewrite (routingRules_nil_connections pi containers), elem_of_nil.
    tauto. }
  split; [apply Hins|]. split; [|split; [|split; [|split; [|split]]]].
  - intros dbc proto Hd Ht Hp. apply Hins. right. by exists dbc, proto.
  - intros proto port ip Hproto Hport Hin.
    apply Hins in Hin as [Hin|(dbc & proto' & _ & _ & Hp' & E)].
    + split; [done|].
      apply elem_of_routingRules in Hin
        as (ip' & port' & proto' & Hc & Hproto' & E).
      apply dnatRule_inj in E as (-> & -> & ->); [|done..].
      destruct Hc as (dbc & conn' & _ & Hc & Hf & _ & _ & Hp). by exists conn'.
    + apply dnatRule_inj in E as (_ & -> & _); [lia|done..].
  - exact Halone.
  - intros proto port ip Hproto Hport
      (dbc & proto' & _ & _ & Hp' & E)%Halone.
    apply dnatRule_inj in E as (_ & -> & _); [lia|done..].
  - intros dbc Hd Ht.
    destruct (portsFromWeb_spec containers [conn]) as [Hi Hp].
    assert (db.MinPort conn ∈ portsAt (portsFromWeb containers [conn])
                                      (db.IP dbc)) as Hmin.
    { apply Hp. exists dbc, conn. split; [done|].
      split; [by apply list_elem_of_singleton|done]. }
    unfold portsAt in Hmin, Hp. specialize (Hp (db.IP dbc)).
    destruct (portsFromWeb containers [conn] !! db.IP dbc) as [ports|];
      simpl in *; [|by apply not_elem_of_empty in Hmin].
    f_equal. apply set_eq. intros p. rewrite Hp, elem_of_singleton. split.
    + intros (dbc' & conn' & _ & Hc & _ & _ & _ & <-).
      by apply list_elem_of_singleton in Hc as ->.
    + intros ->. by apply Hp.
  - intros f. unfold routingRules. apply reflexive_eq. f_equal.
    destruct (portsFromWeb_spec containers
                ((λ c, withMaxPort (f c) c) <$> connections)) as [H1 P1].
    destruct (portsFromWeb_spec containers connections) as [H2 P2].
    apply ports_ext; [done..|]. intros ip p. rewrite P1, P2.
    apply collected_withMaxPort.
Qed.

Lemma routingRules_min_port_only_witness :
  dnatRule "eth0" "udp" 80 "10.0.0.5"
    ∈ routingRules "eth0" scenarioA_containers
        [overlappedConnection; insideConnection]
  ∧ (dnatRule "eth0" "tcp" 86 "10.0.0.5"
       ∉ routingRules "eth0" scenarioA_containers [overlappedConnection])
  ∧ portsFromWeb scenarioA_containers [overlappedConnection] !! "10.0.0.5"
    = Some {[80%Z]}.
Proof.
  destruct (routingRules_min_port_only "eth0" scenarioA_containers
              [] overlappedConnection [insideConnection])
    as (_ & H2 & _ & _ & H5 & H6 & _).
  - reflexivity.
  - simpl. lia.
  - split; [|split].
    + apply (H2 {| db.IP := "10.0.0.5"; db.Labels := ["web"] |} "udp");
        [apply list_elem_of_here..|].
      apply list_elem_of_further, list_elem_of_here.
    + apply H5; [apply list_elem_of_here|simpl; lia].
    + apply (H6 {| db.IP := "10.0.0.5"; db.Labels := ["web"] |});
        apply list_elem_of_here.
Defined.

(** The claim as first worded, that with a ranged public connection in
    the list no emitted rule references a port in (MinPort, MaxPort],
    fails: next to the connection 80-90 the connection 85-85 has the rule
    for port 85 emitted. *)
Lemma routingRules_min_port_only_counterexample :
  ¬ (∀ pi containers connections conn proto port ip,
       conn ∈ connections →
       db.From conn = stitch.PublicInternetLabel →
       (db.MinPort conn < db.MaxPort conn)%Z →
       proto ∈ protocols →
       (db.MinPort conn < port ≤ db.MaxPort conn)%Z →
       dnatRule pi proto port ip ∉ routingRules pi containers connections).
Proof.
  intros H.
  apply (H "eth0" scenarioA_containers
           [overlappedConnection; insideConnection] overlappedConnection
           "tcp" 85%Z "10.0.0.5").
  - apply list_elem_of_here.
  - reflexivity.
  - simpl. lia.
  - apply list_elem_of_here.
  - simpl. lia.
  - apply elem_of_routingRules. exists "10.0.0.5", 85%Z, "tcp".
    split; [|split; [apply list_elem_of_here|done]].
    exists {| db.IP := "10.0.0.5"; db.Labels := ["web"] |}, insideConnection.
    split; [apply list_elem_of_here|].
    split; [apply list_elem_of_further, list_elem_of_here|].
    split; [done|]. split; [apply list_elem_of_here|done].
Qed.

(** Scenario E: two public connections on the same port to two labels,
    one container each, give four rules. *)
Example routingRules_scenarioE :
  routingRules "eth0" scenarioE_containers scenarioE_connections ≡ₚ
  [ "-i eth0 -p tcp -m tcp --dport 80 -j DNAT --to-destination 10.0.0.5:80";
    "-i eth0 -p udp -m udp --dport 80 -j DNAT --to-destination 10.0.0.5:80";
    "-i eth0 -p tcp -m tcp --dport 80 -j DNAT --to-destination 10.0.0.6:80";
    "-i eth0 -p udp -m udp --dport 80 -j DNAT --to-destination 10.0.0.6:80" ].
Proof. vm_compute. reflexivity. Qed.

(* ===================================================================== *)
(** * Further properties of the resolver and of the entry point          *)
(* ===================================================================== *)

(** X1.  [getPublicInterfaceImpl] returns a nil error only when the route
    list was read, it holds a route without destination, and the link of
    the first such route was found; the name returned is then that
    link's.  With any error the name returned is empty. *)
Theorem getPublicInterfaceImpl_result (nl : Netlink) :
  let r := getPublicInterfaceImpl nl in
  match r.2 with
  | None =>
      ∃ before d after link,
        routeList nl = (before ++ d :: after, None)
        ∧ Forall (λ x, netlink.Dst x ≠ None) before
        ∧ netlink.Dst d = None
        ∧ linkByIndex nl (netlink.LinkIndex d) = (link, None)
        ∧ r.1 = netlink.Name link
  | Some e =>
      r.1 = EmptyString
      ∧ ((∃ e0, (routeList nl).2 = Some e0 ∧ e = "route list: " +:+ e0)
         ∨ ((routeList nl).2 = None
            ∧ Forall (λ x, netlink.Dst x ≠ None) (routeList nl).1
            ∧ e = "missing default route")
         ∨ (∃ d e0, (routeList nl).2 = None
                    ∧ defaultRoute (routeList nl).1 = Some d
                    ∧ (linkByIndex nl (netlink.LinkIndex d)).2 = Some e0
                    ∧ e = "default route missing interface: " +:+ e0))
  end.
Proof.
  assert (∀ routes,
            match defaultRoute routes with
            | Some d => ∃ before after,
                routes = before ++ d :: after
                ∧ Forall (λ x, netlink.Dst x ≠ None) before
                ∧ netlink.Dst d = None
            | None => Forall (λ x, netlink.Dst x ≠ None) routes
            end) as Hsearch.
  { induction routes as [|x routes IH]; simpl; [constructor|].
    destruct (netlink.Dst x) eqn:Hx.
    - destruct (defaultRoute routes) as [d|].
      + destruct IH as (before & after & -> & Hb & Hd).
        exists (x :: before), after. split; [done|]. split; [|done].
        constructor; [by rewrite Hx|done].
      + constructor; [by rewrite Hx|done].
    - exists [], routes. split; [done|]. split; [constructor|done]. }
  unfold getPublicInterfaceImpl.
  destruct (routeList nl) as [routes [e|]] eqn:Hl; simpl.
  { split; [done|]. left. eauto. }
  specialize (Hsearch routes).
  destruct (defaultRoute routes) as [d|] eqn:Hd; simpl.
  - destruct (linkByIndex nl (netlink.LinkIndex d)) as [link [e|]] eqn:Hk;
      simpl.
    + split; [done|]. right. right. exists d, e. by rewrite Hk.
    + destruct Hsearch as (before & after & -> & Hb & Hd').
      by exists before, d, after, link.
  - split; [done|]. right. left. done.
Qed.

(** X2.  Whatever the reason the public interface cannot be resolved,
    [updateNAT] returns the resolver's error under the prefix
    "get public interface: " and leaves the world untouched: no call is
    made and the adapter's state is the one it was given. *)
Theorem updateNAT_unresolved {S} (ipt : IPTables S) (nl : Netlink)
    containers connections (w : World S) name e :
  getPublicInterfaceImpl nl = (name, Some e) →
  updateNAT ipt nl containers connections w =
    (Some ("get public interface: " +:+ e), w).
Proof.
  intros H. unfold updateNAT, getPublicInterface. by rewrite H.
Qed.

Lemma updateNAT_unresolved_witness :
  updateNAT fake.ipt
    {| routeList := ([], Some "netlink unavailable");
       linkByIndex := linkByIndex eth0 |}
    scenarioA_containers scenarioA_connections (fake.start staleChain)
  = (Some "get public interface: route list: netlink unavailable",
     fake.start staleChain).
Proof.
  apply (updateNAT_unresolved fake.ipt _ _ _ _ EmptyString
           "route list: netlink unavailable").
  reflexivity.
Defined.

(* ===================================================================== *)
(** * Further properties of the listing parser                           *)
(* ===================================================================== *)

(** X3.  [getRules] makes exactly one call, the List of the given chain,
    and leaves the adapter in the state that call returned; whenever it
    returns an error, from the adapter or for a malformed line, it returns
    no rule at all. *)
Theorem getRules_one_call {S} (ipt : IPTables S) table chain (w : World S) :
  let r := getRules ipt table chain w in
  let l := List ipt table chain (backend w) in
  r.2 = {| backend := l.2;
           trace := trace w ++ [{| ev_call := CallList table chain;
                                    ev_err := l.1.2 |}] |}
  ∧ (r.1.2 ≠ None → r.1.1 = [])
  ∧ (∀ e, l.1.2 = Some e → r.1.2 = Some e).
Proof.
  cbv zeta. rewrite getRules_run. simpl. split; [done|].
  destruct (List ipt table chain (backend w)) as [[raw [e|]] s']; simpl.
  { split; [done|]. by intros e' [= ->]. }
  split; [|done].
  assert (∀ rawRules rules,
            (parseRules rawRules rules).2 ≠ None →
            (parseRules rawRules rules).1 = []) as H.
  { induction rawRules as [|x rawRules IH]; intros rules;
      cbn [parseRules]; [done|].
    destruct (gostrings.HasPrefix x "-A"); cbn [negb]; [|apply IH].
    destruct (gostrings.SplitN x " " 3) as [|a [|b [|c [|d k]]]];
      try done. apply IH. }
  apply H.
Qed.

Lemma listingLine_fields chain r :
  ¬ occurs " " chain → threeFields (listingLine chain r) "-A" chain r.
Proof.
  intros Hc. unfold threeFields, listingLine. split; [done|].
  split; [|done]. simpl. intuition discriminate.
Qed.

Lemma threeFields_args r a b args a' b' args' :
  threeFields r a b args → threeFields r a' b' args' → args = args'.
Proof.
  intros H1%SplitN3_fields H2%SplitN3_fields. rewrite H1 in H2.
  by injection H2.
Qed.

(** X4.  Round trip of the listing format.  When the "-A" lines of a
    listing are the lines [-A <chain> <rule>] of some rules, for a chain
    name without space, [getRules] returns exactly those rules in order,
    whatever other lines (policy or chain-creation lines) stand between
    them. *)
Theorem getRules_listing_roundtrip {S} (ipt : IPTables S) table chain
    (w : World S) raw s' chain' rules :
  List ipt table chain (backend w) = ((raw, None), s') →
  ¬ occurs " " chain' →
  filter ruleLine raw = listingLine chain' <$> rules →
  (getRules ipt table chain w).1 = (rules, None).
Proof.
  intros Hl Hc Hf. rewrite getRules_run, Hl. simpl.
  assert (Forall (λ y, ruleLine y → wellFormed y) raw) as Hwf.
  { apply Forall_forall. intros y Hy Ry.
    assert (y ∈ filter ruleLine raw) as Hin by by apply list_elem_of_filter.
    rewrite Hf in Hin. apply list_elem_of_fmap in Hin as (r & -> & _).
    exists "-A", chain', r. by apply listingLine_fields. }
  destruct (parseRules_ok raw [] Hwf) as (new & -> & H2). simpl.
  rewrite Hf in H2. f_equal. clear Hf Hwf Hl.
  revert new H2. induction rules as [|r rules IH]; intros new H2.
  - by apply Forall2_nil_inv_l in H2.
  - rewrite fmap_cons in H2.
    apply Forall2_cons_inv_l in H2 as (x & new' & (a & b & Hx) & H2 & ->).
    f_equal; [|by apply IH].
    by eapply threeFields_args; [|apply listingLine_fields].
Qed.

Lemma getRules_listing_roundtrip_witness :
  (getRules (fake.listing ["-P PREROUTING ACCEPT";
                           "-A PREROUTING -i eth0 -j X";
                           "-N DOCKER";
                           "-A PREROUTING -j Y"])
     "nat" "PREROUTING" {| backend := tt; trace := [] |}).1
  = (["-i eth0 -j X"; "-j Y"], None).
Proof.
  apply (getRules_listing_roundtrip (fake.listing _) "nat" "PREROUTING"
           {| backend := tt; trace := [] |} _ tt "PREROUTING"
           ["-i eth0 -j X"; "-j Y"] eq_refl).
  - simpl. intuition discriminate.
  - reflexivity.
Defined.

(* ===================================================================== *)
(** * Further properties of the synchroniser and of the entry point      *)
(* ===================================================================== *)

Lemma failStop_quiet evs err : quiet evs → failStop evs err.
Proof.
  intros Q pre ev post e0 -> Hev. unfold quiet in Q.
  rewrite Forall_app, Forall_cons in Q. destruct Q as (_ & Q & _).
  rewrite Q in Hev. discriminate Hev.
Qed.

Lemma failStop_None evs : failStop evs None → quiet evs.
Proof.
  intros H. apply Forall_forall. intros ev Hin.
  apply list_elem_of_split in Hin as (pre & post & ->).
  destruct (ev_err ev) as [e0|] eqn:Hev; [|done].
  by destruct (H pre ev post e0 eq_refl Hev) as [_ ?].
Qed.

(** Two phases in sequence, the second one skipped when the first
    returned an error. *)
Lemma failStop_app evs1 evs2 err1 err :
  failStop evs1 err1 →
  match err1 with
  | Some e => evs2 = [] ∧ err = Some e
  | None => failStop evs2 err
  end →
  failStop (evs1 ++ evs2) err.
Proof.
  intros H1 H2 pre ev post e0 E Hev.
  destruct err1 as [e|].
  - destruct H2 as [-> ->]. rewrite app_nil_r in E. by apply (H1 pre).
  - apply failStop_None in H1.
    apply app_eq_inv in E as [(k & -> & E)|(k & -> & E)].
    + destruct k as [|y k]; simpl in E.
      * subst evs2. by apply (H2 []).
      * injection E as <- ->. unfold quiet in H1.
        rewrite Forall_app, Forall_cons in H1. destruct H1 as (_ & Q & _).
        rewrite Q in Hev. discriminate Hev.
    + by apply (H2 k).
Qed.

Lemma loopRun_failStop pfx cs evs err :
  Forall (λ c, errorPrefix c = pfx) cs → loopRun pfx cs evs err →
  failStop evs err.
Proof.
  intros Hcs R pre ev post e0 E Hev.
  pose proof (loopRun_all _ _ _ _ _ Hcs R) as Hp. simpl in Hp.
  destruct (loopRun_failed_last _ _ _ _ _ _ _ _ R E Hev) as [-> ->].
  split; [done|]. rewrite E, Forall_app, Forall_cons in Hp.
  destruct Hp as (_ & -> & _). done.
Qed.

(** The events of one run of [syncChain]. *)
Lemma syncChain_events {S} (ipt : IPTables S) table chain target
    (w : World S) :
  let r := syncChain ipt table chain target w in
  ∃ evs,
    trace r.2 = trace w ++ evs
    ∧ Forall (λ ev, callChain (ev_call ev) = (table, chain)
                    ∧ isAppendUnique (ev_call ev) = false) evs
    ∧ failStop evs r.1.
Proof.
  intros r. pose proof (syncChain_run ipt table chain target w) as H.
  cbv zeta in H. fold r in H.
  pose proof (getRules_run ipt table chain w) as Hg. cbv zeta in Hg.
  set (l := List ipt table chain (backend w)) in *.
  set (g := getRules ipt table chain w) in *.
  set (lst := {| ev_call := CallList table chain; ev_err := l.1.2 |}).
  assert (trace g.2 = trace w ++ [lst]) as Hgt by (by rewrite Hg).
  assert (∀ e0, l.1.2 = Some e0 → g.1.2 = Some e0) as Hge
    by (intros e0 E; by rewrite Hg, E).
  assert (failStop [lst] (wrap "iptables get: " g.1.2)) as Hlst.
  { intros pre ev post e0 E Hev.
    destruct pre as [|x pre]; [|by destruct pre].
    injection E as <- <-. simpl in Hev. split; [done|].
    by rewrite (Hge _ Hev). }
  destruct g.1.2 as [e|] eqn:HgE.
  - exists [lst]. rewrite H. simpl. split; [done|]. split; [|done].
    by repeat constructor.
  - destruct H as (evsD & errD & evsA & Ht & HrD & HA).
    exists (lst :: evsD ++ evsA).
    split; [by rewrite Ht, Hgt, <-app_assoc|].
    assert (Forall (λ ev, callChain (ev_call ev) = (table, chain)
                          ∧ isAppendUnique (ev_call ev) = false) evsD) as FD.
    { eapply (loopRun_all (λ c, callChain c = (table, chain)
                                ∧ isAppendUnique c = false)); [|done].
      apply Forall_fmap, Forall_true. done. }
    assert (failStop evsD errD) as SD.
    { eapply loopRun_failStop; [|done]. apply Forall_fmap, Forall_true. done. }
    split.
    + constructor; [done|]. apply Forall_app. split; [done|].
      destruct errD as [e|]; [by destruct HA as [-> _]|].
      eapply (loopRun_all (λ c, callChain c = (table, chain)
                                ∧ isAppendUnique c = false)); [|done].
      apply Forall_fmap, Forall_true. done.
    + apply (failStop_app [lst] (evsD ++ evsA) None); [done|].
      apply (failStop_app evsD evsA errD); [done|].
      destruct errD as [e|]; [done|].
      eapply loopRun_failStop; [|done]. apply Forall_fmap, Forall_true. done.
Qed.

(** X5.  When the chain cannot be read, because List failed or because a
    rule line is malformed, [syncChain] returns that error under the
    prefix "iptables get: " after the single List call: it deletes
    nothing and appends nothing. *)
Theorem syncChain_unreadable {S} (ipt : IPTables S) table chain target
    (w : World S) e :
  (getRules ipt table chain w).1.2 = Some e →
  let l := List ipt table chain (backend w) in
  syncChain ipt table chain target w =
    (Some ("iptables get: " +:+ e),
     {| backend := l.2;
        trace := trace w ++ [{| ev_call := CallList table chain;
                                 ev_err := l.1.2 |}] |}).
Proof.
  intros He. pose proof (syncChain_run ipt table chain target w) as H.
  cbv zeta in H. rewrite He in H. rewrite H. f_equal.
  by rewrite getRules_run.
Qed.

Lemma syncChain_unreadable_witness :
  (syncChain (fake.listing ["-A PREROUTING -j X"; "-A PREROUTING"])
     "nat" "PREROUTING" targetA {| backend := tt; trace := [] |})
  = (Some "iptables get: malformed rule: -A PREROUTING",
     {| backend := tt;
        trace := [{| ev_call := CallList "nat" "PREROUTING";
                     ev_err := None |}] |}).
Proof.
  apply (syncChain_unreadable (fake.listing _) "nat" "PREROUTING" targetA
           {| backend := tt; trace := [] |}
           "malformed rule: -A PREROUTING").
  reflexivity.
Defined.

(** X6.  Every run of [updateNAT] first makes AppendUnique calls, all on
    the chains INPUT, OUTPUT and POSTROUTING of table nat, and then List,
    Delete and Append calls, all on nat/PREROUTING.  A call that returned
    an error is the last call of the run and its error is returned under
    the prefix of the call; so a run that returns nil made all three
    AppendUnique calls and no call of it failed. *)
Theorem updateNAT_calls {S} (ipt : IPTables S) (nl : Netlink) containers
    connections (w : World S) :
  let r := updateNAT ipt nl containers connections w in
  ∃ defaults sync,
    trace r.2 = trace w ++ defaults ++ sync
    ∧ Forall (λ ev, isAppendUnique (ev_call ev) = true
                    ∧ ∃ ch, callChain (ev_call ev) = ("nat", ch)
                            ∧ ch ∈ ["INPUT"; "OUTPUT"; "POSTROUTING"])
             defaults
    ∧ Forall (λ ev, isAppendUnique (ev_call ev) = false
                    ∧ callChain (ev_call ev) = ("nat", "PREROUTING")) sync
    ∧ failStop (defaults ++ sync) r.1
    ∧ (r.1 = None → quiet (defaults ++ sync) ∧ length defaults = 3).
Proof.
  intros r. subst r. unfold updateNAT.
  destruct (getPublicInterface nl) as [pi [e|]].
  { exists [], []. simpl. rewrite app_nil_r. repeat split; try constructor.
    - by destruct pre.
    - by destruct pre.
    - discriminate. }
  rewrite bind_run.
  destruct (forRange_logged "iptables append: "
              (λ x, CallAppendUnique (table x) (chain x) (ruleSpec x))
              (λ x, AppendUnique ipt (table x) (chain x) (ruleSpec x))
              (defaultRules pi) w) as (evsD & HtD & HrD).
  change (forRange _ _ w) with (setDefaultRules ipt pi w) in HtD, HrD.
  set (d := setDefaultRules ipt pi w) in *.
  assert (Forall (λ c, errorPrefix c = "iptables append: "
                       ∧ isAppendUnique c = true
                       ∧ ∃ ch, callChain c = ("nat", ch)
                               ∧ ch ∈ ["INPUT"; "OUTPUT"; "POSTROUTING"])
            ((λ x, CallAppendUnique (table x) (chain x) (ruleSpec x))
               <$> defaultRules pi)) as Hthree.
  { simpl. repeat constructor; simpl; eexists; (split; [done|]);
      rewrite !elem_of_cons; tauto. }
  assert (Forall (λ ev, isAppendUnique (ev_call ev) = true
                        ∧ ∃ ch, callChain (ev_call ev) = ("nat", ch)
                                ∧ ch ∈ ["INPUT"; "OUTPUT"; "POSTROUTING"])
            evsD) as FD.
  { eapply Forall_impl; [eapply loopRun_all; [exact Hthree|exact HrD]|].
    simpl. tauto. }
  assert (failStop evsD d.1) as SD.
  { eapply loopRun_failStop; [|exact HrD].
    eapply Forall_impl; [exact Hthree|]. simpl. tauto. }
  destruct d.1 as [e|] eqn:Hd.
  - exists evsD, []. simpl. rewrite !app_nil_r.
    split; [done|]. split; [done|]. split; [constructor|].
    split; [done|]. discriminate.
  - destruct (syncChain_events ipt "nat" "PREROUTING"
                (routingRules pi containers connections) d.2)
      as (evsS & HtS & FS & SS).
    exists evsD, evsS. rewrite HtS, HtD, <-app_assoc.
    split; [done|]. split; [done|]. split.
    { eapply Forall_impl; [exact FS|]. simpl. tauto. }
    assert (failStop (evsD ++ evsS)
              (syncChain ipt "nat" "PREROUTING"
                 (routingRules pi containers connections) d.2).1) as Hall
      by (by apply (failStop_app evsD evsS None)).
    split; [done|]. intros Hnil. rewrite Hnil in Hall.
    split; [by apply failStop_None|].
    apply loopRun_None in HrD as [HrD _].
    apply (f_equal length) in HrD. by rewrite length_fmap in HrD.
Qed.

(** X7.  A tick of [runNat] on a node whose own record cannot be read,
    that is not initialised, that is not a worker, or that cannot obtain
    an iptables handle, has no effect: no call is made. *)
Theorem runNatTick_gate {S} (ipt : IPTables S) minion err containerTable
    connectionTable new (nl : Netlink) (w : World S) :
  err ≠ None ∨ db.SupervisorInit minion = false
  ∨ db.MinionRole minion ≠ db.Worker ∨ new ≠ None →
  runNatTick ipt (minion, err) containerTable connectionTable new nl w
  = (tt, w).
Proof.
  intros H. unfold runNatTick.
  destruct err as [e|]; [done|]. simpl.
  destruct (db.SupervisorInit minion); [|done]. simpl.
  case_bool_decide as Hr; simpl; [|done].
  destruct new as [e|]; [done|].
  destruct H as [?|[?|[?|?]]]; done.
Qed.

Lemma runNatTick_gate_witness :
  runNatTick fake.ipt
    ({| db.SupervisorInit := true; db.MinionRole := db.Master |}, None)
    scenarioA_containers scenarioA_connections None eth0
    (fake.start staleChain)
  = (tt, fake.start staleChain).
Proof.
  apply (runNatTick_gate fake.ipt).
  right. right. left. simpl. discriminate.
Defined.

(* ===================================================================== *)
(** * Splitting and joining                                              *)
(* ===================================================================== *)

Lemma cut_length s sep h t :
  gostrings.cut s sep = Some (h, t) → String.length t < String.length s.
Proof.
  intros [-> _]%cut_Some. rewrite length_append. simpl. lia.
Qed.

Lemma genSplit_fuel sep n m s :
  String.length s ≤ n → String.length s ≤ m →
  gostrings.genSplit s sep n = gostrings.genSplit s sep m.
Proof.
  revert m s. induction n as [|n IH]; intros m s Hn Hm.
  - destruct s; [|simpl in Hn; lia]. by destruct m.
  - destruct m as [|m].
    + destruct s; [done|simpl in Hm; lia].
    + simpl. destruct (gostrings.cut s sep) as [[h t]|] eqn:Hc; [|done].
      apply cut_length in Hc. f_equal. apply IH; lia.
Qed.

Lemma genSplit_sep_free sep n s :
  String.length s ≤ n →
  Forall (λ f, ¬ occurs sep f) (gostrings.genSplit s sep n).
Proof.
  revert s. induction n as [|n IH]; intros s Hn; simpl.
  - destruct s; [|simpl in Hn; lia]. repeat constructor. simpl. tauto.
  - destruct (gostrings.cut s sep) as [[h t]|] eqn:Hc.
    + pose proof (cut_length _ _ _ _ Hc). apply cut_Some in Hc as [_ Hh].
      constructor; [done|]. apply IH. lia.
    + apply cut_None in Hc. by repeat constructor.
Qed.

Lemma Split_single s sep :
  ¬ occurs sep s → gostrings.Split s sep = [s].
Proof.
  intros H%cut_None. unfold gostrings.Split.
  destruct (String.length s); simpl; [done|]. by rewrite H.
Qed.

Lemma Split_token a b sep :
  ¬ occurs sep a →
  gostrings.Split (a +:+ String sep b) sep = a :: gostrings.Split b sep.
Proof.
  intros Ha. unfold gostrings.Split. rewrite length_append. simpl.
  rewrite Nat.add_succ_r. simpl.
  assert (gostrings.cut (a +:+ String sep b) sep = Some (a, b)) as ->
    by by apply cut_Some.
  f_equal. apply genSplit_fuel; lia.
Qed.

Lemma Split_Join_fields fields sep :
  fields ≠ [] → Forall (λ f, ¬ occurs sep f) fields →
  gostrings.Split (gostrings.Join fields sep) sep = fields.
Proof.
  intros Hne Hf. induction Hf as [|x fields Hx Hf IH]; [done|].
  destruct fields as [|y fields].
  - by apply Split_single.
  - rewrite Join_cons by done. rewrite Split_token by done.
    f_equal. by apply IH.
Qed.

(** X8.  [Split] and [Join] are inverse to each other: joining the fields
    of a string gives the string back, the fields are never empty as a
    list and hold no separator, and splitting the join of a non-empty
    list of separator-free fields gives the fields back. *)
Theorem Split_Join_roundtrip sep :
  (∀ s, gostrings.Join (gostrings.Split s sep) sep = s
        ∧ gostrings.Split s sep ≠ []
        ∧ Forall (λ f, ¬ occurs sep f) (gostrings.Split s sep))
  ∧ (∀ fields, fields ≠ [] → Forall (λ f, ¬ occurs sep f) fields →
               gostrings.Split (gostrings.Join fields sep) sep = fields).
Proof.
  split.
  - intros s. split; [apply Join_genSplit|].
    split; [apply genSplit_nonempty|]. by apply genSplit_sep_free.
  - intros fields. apply Split_Join_fields.
Qed.

(** X9.  [SplitN] with a positive count loses nothing and never returns
    more fields than asked; with count 0 it returns nil. *)
Theorem SplitN_bounded s sep n :
  length (gostrings.SplitN s sep n) ≤ n
  ∧ (0 < n → gostrings.Join (gostrings.SplitN s sep n) sep = s)
  ∧ gostrings.SplitN s sep 0 = [].
Proof.
  split; [|split; [|done]].
  - destruct n as [|k]; simpl; [done|]. revert s.
    induction k as [|k IH]; intros s; simpl; [done|].
    destruct (gostrings.cut s sep) as [[h t]|]; simpl; [|lia].
    specialize (IH t). lia.
  - destruct n as [|k]; [lia|]. intros _. apply Join_genSplit.
Qed.

(** X10.  For an interface name and a container address without space,
    the argument list that [syncChain] hands to the adapter for a compiled
    rule is the twelve iptables arguments
    [-i <if> -p <proto> -m <proto> --dport <port> -j DNAT
     --to-destination <ip>:<port>]. *)
Theorem dnatRule_arguments table chain pi proto port ip :
  ¬ occurs " " pi → ¬ occurs " " ip → proto ∈ protocols →
  let args := [ "-i"; pi; "-p"; proto; "-m"; proto; "--dport"; pretty port;
                "-j"; "DNAT"; "--to-destination";
                ip +:+ ":" +:+ pretty port ] in
  appendCall table chain (dnatRule pi proto port ip)
    = CallAppend table chain args
  ∧ deleteCall table chain (dnatRule pi proto port ip)
    = CallDelete table chain args.
Proof.
  intros Hpi Hip Hproto args.
  assert (gostrings.Split (dnatRule pi proto port ip) " " = args) as E.
  { change (dnatRule pi proto port ip) with (gostrings.Join args " ").
    apply Split_Join_fields; [done|].
    assert (¬ occurs " " proto) as Hp.
    { unfold protocols in Hproto.
      rewrite !elem_of_cons, elem_of_nil in Hproto.
      destruct Hproto as [->|[->|[]]]; simpl; intuition discriminate. }
    pose proof (pretty_Z_no_space port) as Hport.
    unfold args. repeat constructor; try done;
      try (simpl; intuition discriminate).
    rewrite occurs_append. simpl. intros [?|[?|?]]; [done|discriminate|done]. }
  unfold appendCall, deleteCall. by rewrite E.
Qed.

Lemma dnatRule_arguments_witness :
  appendCall "nat" "PREROUTING" (dnatRule "eth0" "tcp" 80 "10.0.0.5")
  = CallAppend "nat" "PREROUTING"
      [ "-i"; "eth0"; "-p"; "tcp"; "-m"; "tcp"; "--dport"; "80";
        "-j"; "DNAT"; "--to-destination"; "10.0.0.5:80" ].
Proof.
  refine (proj1 (dnatRule_arguments "nat" "PREROUTING" "eth0" "tcp" 80
                   "10.0.0.5" _ _ _)).
  - simpl. intuition discriminate.
  - simpl. intuition discriminate.
  - apply list_elem_of_here.
Defined.

(* ===================================================================== *)
(** * Further properties of the rule compiler                            *)
(* ===================================================================== *)

Lemma elem_of_collectedPairs containers connections ip port :
  (ip, port) ∈ collectedPairs containers connections
  ↔ collected containers connections ip port.
Proof.
  unfold collectedPairs, collected. rewrite elem_of_list_to_set.
  rewrite list_elem_of_bind. split.
  - intros (dbc & H & Hd). apply list_elem_of_bind in H as (conn & H & Hc).
    case_bool_decide as Hf; [|by apply elem_of_nil in H].
    apply list_elem_of_bind in H as (l & H & Hl).
    case_bool_decide as Ht; [|by apply elem_of_nil in H].
    apply list_elem_of_singleton in H as [= -> ->]. subst l.
    by exists dbc, conn.
  - intros (dbc & conn & Hd & Hc & Hf & Hl & <- & <-).
    exists dbc. split; [|done]. apply list_elem_of_bind.
    exists conn. split; [|done]. rewrite bool_decide_true by done.
    apply list_elem_of_bind. exists (db.To conn). split; [|done].
    rewrite bool_decide_true by done. by apply list_elem_of_singleton.
Qed.

(** X11.  The compiled list is empty exactly when no (address, port) pair
    is collected; in particular it is empty without containers, without
    connections, and when no connection comes from the public internet. *)
Theorem routingRules_empty pi containers connections :
  (routingRules pi containers connections = []
   ↔ ∀ ip port, ¬ collected containers connections ip port)
  ∧ routingRules pi [] connections = []
  ∧ routingRules pi containers [] = []
  ∧ (Forall (λ c, db.From c ≠ stitch.PublicInternetLabel) connections →
     routingRules pi containers connections = []).
Proof.
  assert (∀ cs conns,
            routingRules pi cs conns = []
            ↔ ∀ ip port, ¬ collected cs conns ip port) as H.
  { intros cs conns. split.
    - intros E ip port Hc.
      assert (dnatRule pi "tcp" port ip ∈ routingRules pi cs conns) as Hin.
      { apply elem_of_routingRules. exists ip, port, "tcp".
        split; [done|]. split; [apply list_elem_of_here|done]. }
      rewrite E in Hin. by apply elem_of_nil in Hin.
    - intros Hn. apply elem_of_nil_inv. intros r Hr.
      apply elem_of_routingRules in Hr as (ip & port & _ & Hc & _).
      by apply (Hn ip port). }
  split; [apply H|]. split; [|split].
  - apply H. intros ip port (dbc & _ & Hd & _). by apply elem_of_nil in Hd.
  - apply H. intros ip port (_ & conn & _ & Hc & _). by apply elem_of_nil in Hc.
  - intros Hf. apply H. intros ip port (_ & conn & _ & Hc & Hfrom & _).
    rewrite Forall_forall in Hf. by apply (Hf conn).
Qed.

Lemma length_bind_pair {A B} (f g : A → B) (l : list A) :
  length (l ≫= λ x, [f x; g x]) = 2 * length l.
Proof. induction l as [|x l IH]; csimpl; [done|]. rewrite IH. lia. Qed.

(** X12.  Duplicates collapse: the compiled list is, up to order, the TCP
    rule and the UDP rule of each distinct collected (address, port)
    pair, so its length is twice the number of distinct pairs, however
    often a pair is produced by the inputs. *)
Theorem routingRules_count pi containers connections :
  routingRules pi containers connections
    ≡ₚ (elements (collectedPairs containers connections) ≫= λ '(ip, port),
          [dnatRule pi "tcp" port ip; dnatRule pi "udp" port ip])
  ∧ length (routingRules pi containers connections)
    = 2 * size (collectedPairs containers connections).
Proof.
  assert (routingRules pi containers connections
    ≡ₚ (elements (collectedPairs containers connections) ≫= λ ipp,
          [dnatRule pi "tcp" ipp.2 ipp.1; dnatRule pi "udp" ipp.2 ipp.1]))
    as Hperm.
  { apply NoDup_Permutation.
    - apply NoDup_emitRules.
    - apply NoDup_bind; [| |apply NoDup_elements].
      + intros [ip1 p1] [ip2 p2] r _ _ H1 H2. simpl in *.
        rewrite !elem_of_cons, elem_of_nil in H1, H2.
        assert (∃ q1, q1 ∈ protocols ∧ r = dnatRule pi q1 p1 ip1)
          as (q1 & Hq1 & ->).
        { destruct H1 as [->|[->|[]]]; eexists; (split; [|done]);
            unfold protocols; rewrite !elem_of_cons; tauto. }
        assert (∃ q2, q2 ∈ protocols
                      ∧ dnatRule pi q1 p1 ip1 = dnatRule pi q2 p2 ip2)
          as (q2 & Hq2 & E).
        { destruct H2 as [E|[E|[]]]; eexists; (split; [|exact E]);
            unfold protocols; rewrite !elem_of_cons; tauto. }
        by apply dnatRule_inj in E as (_ & -> & ->).
      + intros [ip p] _. simpl. apply NoDup_cons. split.
        * rewrite list_elem_of_singleton. intros E.
          apply dnatRule_inj in E as (E & _); [done|..];
            unfold protocols; rewrite !elem_of_cons; tauto.
        * apply NoDup_singleton.
    - intros r. rewrite elem_of_routingRules, list_elem_of_bind. split.
      + intros (ip & port & proto & Hc & Hproto & ->).
        exists (ip, port). split.
        * simpl. unfold protocols in Hproto.
          rewrite !elem_of_cons, elem_of_nil in Hproto.
          rewrite !elem_of_cons. destruct Hproto as [->|[->|[]]]; tauto.
        * by apply elem_of_elements, elem_of_collectedPairs.
      + intros ([ip port] & Hr & Hin). simpl in Hr.
        apply elem_of_elements, elem_of_collectedPairs in Hin.
        rewrite !elem_of_cons, elem_of_nil in Hr.
        destruct Hr as [->|[->|[]]]; eexists ip, port, _;
          (split; [done|]); (split; [|done]);
          unfold protocols; rewrite !elem_of_cons; tauto. }
  split.
  - rewrite Hperm. apply reflexive_eq. apply list_bind_ext; [|done].
    by intros [ip port].
  - rewrite Hperm, length_bind_pair. done.
Qed.

(** X13.  Only membership in the two input lists matters: inputs with
    the same containers and the same connections, whatever their order
    and however often each is repeated, compile to the same rules up to
    order. *)
Theorem routingRules_set_semantics pi containers containers' connections
    connections' :
  (∀ c, c ∈ containers ↔ c ∈ containers') →
  (∀ c, c ∈ connections ↔ c ∈ connections') →
  routingRules pi containers connections
    ≡ₚ routingRules pi containers' connections'.
Proof.
  intros Hc Hn. unfold routingRules. apply reflexive_eq. f_equal.
  destruct (portsFromWeb_spec containers connections) as [H1 P1].
  destruct (portsFromWeb_spec containers' connections') as [H2 P2].
  apply ports_ext; [done..|]. intros ip p. rewrite P1, P2.
  unfold collected. by setoid_rewrite Hc; setoid_rewrite Hn.
Qed.

Lemma routingRules_set_semantics_witness :
  routingRules "eth0" (scenarioA_containers ++ scenarioA_containers)
    scenarioA_connections
  ≡ₚ routingRules "eth0" scenarioA_containers
       (scenarioA_connections ++ scenarioA_connections).
Proof.
  apply routingRules_set_semantics.
  - intros c. unfold scenarioA_containers.
    rewrite elem_of_app, !list_elem_of_singleton. tauto.
  - intros c. unfold scenarioA_connections.
    rewrite elem_of_app, !list_elem_of_singleton. tauto.
Defined.

(** X14.  Only inbound policy produces rules: connections whose source is
    not the public internet (among them those towards it) and containers
    without label can be dropped from the inputs without changing the
    compiled rules. *)
Theorem routingRules_relevant_inputs pi containers connections :
  routingRules pi
    (filter (λ dbc, db.Labels dbc ≠ []) containers)
    (filter (λ c, db.From c = stitch.PublicInternetLabel) connections)
  = routingRules pi containers connections.
Proof.
  unfold routingRules. f_equal.
  match goal with |- portsFromWeb ?cs ?conns = _ =>
    destruct (portsFromWeb_spec cs conns) as [H1 P1] end.
  destruct (portsFromWeb_spec containers connections) as [H2 P2].
  apply ports_ext; [done..|]. intros ip p. rewrite P1, P2.
  unfold collected. split.
  - intros (dbc & conn & Hd & Hc & H).
    apply list_elem_of_filter in Hd as [_ Hd].
    apply list_elem_of_filter in Hc as [_ Hc]. by exists dbc, conn.
  - intros (dbc & conn & Hd & Hc & Hf & Hl & H). exists dbc, conn.
    split; [|split; [|done]].
    + apply list_elem_of_filter. split; [|done].
      intros E. rewrite E in Hl. by apply elem_of_nil in Hl.
    + by apply list_elem_of_filter.
Qed.

(** X15.  The compiler is monotone: a rule compiled from some containers
    and connections is still compiled when containers or connections are
    added. *)
Theorem routingRules_monotone pi containers containers' connections
    connections' r :
  containers ⊆ containers' → connections ⊆ connections' →
  r ∈ routingRules pi containers connections →
  r ∈ routingRules pi containers' connections'.
Proof.
  intros Hc Hn (ip & port & proto & Hcol & Hp & ->)%elem_of_routingRules.
  apply elem_of_routingRules. exists ip, port, proto.
  split; [|done]. destruct Hcol as (dbc & conn & Hd & Hcn & H).
  exists dbc, conn. split; [by apply Hc|]. split; [by apply Hn|done].
Qed.

Lemma routingRules_monotone_witness :
  "-i eth0 -p tcp -m tcp --dport 80 -j DNAT --to-destination 10.0.0.5:80"
    ∈ routingRules "eth0" scenarioE_containers scenarioE_connections.
Proof.
  apply (routingRules_monotone "eth0" scenarioA_containers
           scenarioE_containers scenarioA_connections scenarioE_connections).
  - intros c Hc. apply list_elem_of_singleton in Hc as ->.
    apply list_elem_of_here.
  - intros c Hc. apply list_elem_of_singleton in Hc as ->.
    apply list_elem_of_here.
  - vm_compute. apply list_elem_of_here.
Defined.

(* ===================================================================== *)
(** * The placement rules of public ports (stitch)                       *)
(* ===================================================================== *)

Lemma bind_ext_in {A B} (f g : A → list B) (l : list A) :
  (∀ x, x ∈ l → f x = g x) → l ≫= f = l ≫= g.
Proof.
  induction l as [|x l IH]; intros H; csimpl; [done|].
  rewrite (H x) by apply list_elem_of_here. f_equal.
  apply IH. intros y Hy. apply H. by apply list_elem_of_further.
Qed.

Lemma bind_fmap {A B C} (f : A → B) (g : B → list C) (l : list A) :
  (f <$> l) ≫= g = l ≫= λ x, g (f x).
Proof. induction l as [|x l IH]; csimpl; [done|]. by rewrite IH. Qed.

Lemma bind_assoc {A B C} (f : A → list B) (g : B → list C) (l : list A) :
  (l ≫= f) ≫= g = l ≫= λ x, f x ≫= g.
Proof.
  induction l as [|x l IH]; csimpl; [done|]. by rewrite bind_app, IH.
Qed.

Lemma bind_filter {A B} (P : A → Prop) `{∀ x, Decision (P x)}
    (g : A → list B) (l : list A) :
  filter P l ≫= g = l ≫= λ x, if decide (P x) then g x else [].
Proof.
  induction l as [|x l IH]; csimpl; [done|].
  rewrite filter_cons. destruct (decide (P x)); csimpl; by rewrite IH.
Qed.

(** Grouping a list by key and concatenating the groups gives the list
    back up to order. *)
Lemma group_by_key {A K} `{EqDecision K} (key : A → K) (keys : list K)
    (l : list A) :
  NoDup keys → (∀ x, x ∈ l → key x ∈ keys) →
  keys ≫= (λ k, filter (λ x, key x = k) l) ≡ₚ l.
Proof.
  intros Hnd. induction l as [|x l IH]; intros Hin.
  - clear. induction keys as [|k keys IH]; csimpl; [done|]. by rewrite IH.
  - trans (x :: (keys ≫= λ k, filter (λ y, key y = k) l));
      [|f_equiv; apply IH; intros y Hy; apply Hin;
        by apply list_elem_of_further].
    specialize (Hin x (list_elem_of_here _ _)). clear IH.
    induction Hnd as [|k keys Hk Hnd IHk]; [by apply elem_of_nil in Hin|].
    csimpl. rewrite filter_cons. destruct (decide (key x = k)) as [<-|Hne].
    + simpl. f_equiv. f_equiv. apply reflexive_eq, bind_ext_in.
      intros k' Hk'. rewrite filter_cons.
      destruct (decide (key x = k')) as [<-|]; done.
    + apply elem_of_cons in Hin as [?|Hin]; [done|].
      rewrite (IHk Hin). by rewrite Permutation_middle.
Qed.

Lemma portLabels_step (m : gmap Z (list string)) (c : stitch.Connection) p :
  let m' :=
    if bool_decide (stitch.From c ≠ stitch.PublicInternetLabel)
       && bool_decide (stitch.To c ≠ stitch.PublicInternetLabel)
    then m
    else <[stitch.MinPort c :=
             default [] (m !! stitch.MinPort c) ++ [stitch.portTarget c]]> m in
  default [] (m' !! p)
  = default [] (m !! p)
    ++ (stitch.portTarget <$>
          filter (λ c, stitch.MinPort c = p) (filter touchesPublic [c]))
  ∧ ((∀ l, m !! p = Some l → l ≠ []) → ∀ l, m' !! p = Some l → l ≠ []).
Proof.
  intros m'. subst m'. rewrite (filter_cons touchesPublic), filter_nil.
  destruct (decide (touchesPublic c)) as [Hc|Hc].
  - assert (bool_decide (stitch.From c ≠ stitch.PublicInternetLabel)
            && bool_decide (stitch.To c ≠ stitch.PublicInternetLabel)
            = false) as ->.
    { apply andb_false_iff. rewrite !bool_decide_eq_false.
      destruct Hc; [left|right]; tauto. }
    rewrite filter_cons, filter_nil, lookup_insert.
    destruct (decide (stitch.MinPort c = p)) as [->|Hne]; simpl.
    + split; [done|]. intros _ l [= <-]. by destruct (default _ _).
    + rewrite app_nil_r. done.
  - assert (bool_decide (stitch.From c ≠ stitch.PublicInternetLabel)
            && bool_decide (stitch.To c ≠ stitch.PublicInternetLabel)
            = true) as ->.
    { apply andb_true_iff. rewrite !bool_decide_eq_true.
      unfold touchesPublic in Hc. tauto. }
    rewrite filter_nil. simpl. rewrite app_nil_r. done.
Qed.

Lemma portLabels_fold (f : gmap Z (list string) → stitch.Connection
                           → gmap Z (list string)) p :
  (∀ m c,
     default [] (f m c !! p)
     = default [] (m !! p)
       ++ (stitch.portTarget <$>
             filter (λ c, stitch.MinPort c = p) (filter touchesPublic [c]))
     ∧ ((∀ l, m !! p = Some l → l ≠ []) → ∀ l, f m c !! p = Some l → l ≠ [])) →
  ∀ conns m,
    default [] (foldl f m conns !! p)
    = default [] (m !! p)
      ++ (stitch.portTarget <$>
            filter (λ c, stitch.MinPort c = p) (filter touchesPublic conns))
    ∧ ((∀ l, m !! p = Some l → l ≠ []) →
       ∀ l, foldl f m conns !! p = Some l → l ≠ []).
Proof.
  intros Hf conns. induction conns as [|c conns IH]; intros m.
  - simpl. by rewrite app_nil_r.
  - cbn [foldl]. destruct (IH (f m c)) as [IH1 IH2].
    destruct (Hf m c) as [H1 H2]. split.
    + rewrite IH1, H1, <-app_assoc, <-fmap_app, <-!filter_app. done.
    + intros Hm. apply IH2. by apply H2.
Qed.

(** The labels recorded for a port are the targets of the connections
    that touch the public internet on that port, in their order. *)
Lemma portLabels_lookup conns p :
  stitch.portLabels conns !! p =
  match filter (λ c, stitch.MinPort c = p) (filter touchesPublic conns) with
  | [] => None
  | cs => Some (stitch.portTarget <$> cs)
  end.
Proof.
  unfold stitch.portLabels.
  match goal with |- foldl ?f ∅ conns !! p = _ =>
    destruct (portLabels_fold f p (λ m c, portLabels_step m c p) conns ∅)
      as [H1 H2]
  end.
  rewrite lookup_empty in H1. simpl in H1.
  match goal with |- ?m !! p = _ => destruct (m !! p) as [l|] eqn:E end;
    simpl in H1.
  - subst l. specialize (H2 (λ l H, ltac:(by rewrite lookup_empty in H)) _ eq_refl).
    by destruct (filter _ (filter _ _)).
  - by destruct (filter _ (filter _ _)).
Qed.

(** The placements [createPortRules] appends, up to order. *)
Lemma createPortRules_added (st : stitch.Stitch) :
  let pubs := filter touchesPublic (stitch.Connections st) in
  ∃ added,
    stitch.Placements (stitch.createPortRules st)
      = stitch.Placements st ++ added
    ∧ added ≡ₚ
        (c1 ← pubs; c2 ← pubs;
         if decide (stitch.MinPort c2 = stitch.MinPort c1)
         then [stitch.exclusivePlacement (stitch.portTarget c1)
                                         (stitch.portTarget c2)]
         else []).
Proof.
  intros pubs. eexists. split; [reflexivity|].
  set (M := stitch.portLabels (stitch.Connections st)).
  set (F := λ p, filter (λ c, stitch.MinPort c = p) pubs).
  set (H := λ c1 : stitch.Connection,
         F (stitch.MinPort c1) ≫= λ c2,
           [stitch.exclusivePlacement (stitch.portTarget c1)
                                      (stitch.portTarget c2)]).
  assert (∀ p labels, (p, labels) ∈ map_to_list M →
            labels = stitch.portTarget <$> F p) as Hlab.
  { intros p labels Hin%elem_of_map_to_list. unfold M in Hin.
    rewrite portLabels_lookup in Hin. fold pubs in Hin. fold (F p) in Hin.
    destruct (F p); [done|]. by injection Hin as <-. }
  trans ((map_to_list M).*1 ≫= λ p, F p ≫= H).
  { apply reflexive_eq. rewrite bind_fmap. apply bind_ext_in.
    intros [p labels] Hin. simpl. rewrite (Hlab _ _ Hin).
    rewrite bind_fmap. apply bind_ext_in. intros c1 Hc1.
    apply list_elem_of_filter in Hc1 as [<- _]. unfold H.
    by rewrite bind_fmap. }
  rewrite <-bind_assoc.
  assert ((map_to_list M).*1 ≫= F ≡ₚ pubs) as ->.
  2:{ apply reflexive_eq, bind_ext_in. intros c1 _. unfold H, F.
      by rewrite bind_filter. }
  apply (group_by_key stitch.MinPort).
  - apply NoDup_fst_map_to_list.
  - intros c Hc. apply list_elem_of_fmap.
    pose proof (portLabels_lookup (stitch.Connections st) (stitch.MinPort c))
      as Hl. fold pubs in Hl. fold (F (stitch.MinPort c)) in Hl.
    assert (c ∈ F (stitch.MinPort c)) as HcF by by apply list_elem_of_filter.
    destruct (F (stitch.MinPort c)) as [|c0 cs] eqn:HF;
      [by apply elem_of_nil in HcF|].
    exists (stitch.MinPort c, stitch.portTarget <$> c0 :: cs).
    split; [done|]. by apply elem_of_map_to_list.
Qed.

Lemma elem_of_added_placements (pubs : list stitch.Connection) pl :
  pl ∈ (c1 ← pubs; c2 ← pubs;
        if decide (stitch.MinPort c2 = stitch.MinPort c1)
        then [stitch.exclusivePlacement (stitch.portTarget c1)
                                        (stitch.portTarget c2)]
        else [])
  ↔ ∃ c1 c2, c1 ∈ pubs ∧ c2 ∈ pubs
             ∧ stitch.MinPort c1 = stitch.MinPort c2
             ∧ pl = stitch.exclusivePlacement (stitch.portTarget c1)
                                              (stitch.portTarget c2).
Proof.
  rewrite list_elem_of_bind. split.
  - intros (c1 & H & H1). apply list_elem_of_bind in H as (c2 & H & H2).
    destruct (decide _) as [E|]; [|by apply elem_of_nil in H].
    apply list_elem_of_singleton in H. by exists c1, c2.
  - intros (c1 & c2 & H1 & H2 & E & ->). exists c1. split; [|done].
    apply list_elem_of_bind. exists c2. split; [|done].
    rewrite decide_True by done. by apply list_elem_of_singleton.
Qed.

(** X16.  [createPortRules] leaves the connections alone and keeps the
    placements it finds, in order, in front of the ones it appends.  Up
    to order it appends one exclusive placement, without machine
    constraint, for every ordered pair of connections that touch the
    public internet and have the same minimum port, between the labels
    the two connections are recorded under; pairs are counted with
    repetition, a connection being paired with itself as well. *)
Theorem createPortRules_placements (st : stitch.Stitch) :
  let pubs := filter touchesPublic (stitch.Connections st) in
  stitch.Connections (stitch.createPortRules st) = stitch.Connections st
  ∧ ∃ added,
      stitch.Placements (stitch.createPortRules st)
        = stitch.Placements st ++ added
      ∧ added ≡ₚ
          (c1 ← pubs; c2 ← pubs;
           if decide (stitch.MinPort c2 = stitch.MinPort c1)
           then [ {| stitch.TargetLabel := stitch.portTarget c1;
                     stitch.Exclusive := true;
                     stitch.OtherLabel := stitch.portTarget c2;
                     stitch.Provider := EmptyString;
                     stitch.Size := EmptyString;
                     stitch.Region := EmptyString |} ]
           else []).
Proof. intros pubs. split; [done|]. apply createPortRules_added. Qed.

(** X17.  A placement is in the result of [createPortRules] exactly when
    it was there before or it is the exclusive placement between the
    labels of two connections touching the public internet on the same
    minimum port.  Hence two labels sharing a public port are made
    exclusive in both directions, and every label on a public port is
    made exclusive with itself. *)
Theorem createPortRules_exclusive (st : stitch.Stitch) :
  let conns := stitch.Connections st in
  let result := stitch.Placements (stitch.createPortRules st) in
  (∀ pl, pl ∈ result ↔
         pl ∈ stitch.Placements st
         ∨ ∃ c1 c2, c1 ∈ conns ∧ c2 ∈ conns
                    ∧ touchesPublic c1 ∧ touchesPublic c2
                    ∧ stitch.MinPort c1 = stitch.MinPort c2
                    ∧ pl = stitch.exclusivePlacement (stitch.portTarget c1)
                                                     (stitch.portTarget c2))
  ∧ (∀ c1 c2, c1 ∈ conns → c2 ∈ conns →
              touchesPublic c1 → touchesPublic c2 →
              stitch.MinPort c1 = stitch.MinPort c2 →
              stitch.exclusivePlacement (stitch.portTarget c1)
                                        (stitch.portTarget c2) ∈ result
              ∧ stitch.exclusivePlacement (stitch.portTarget c2)
                                          (stitch.portTarget c1) ∈ result)
  ∧ (∀ c, c ∈ conns → touchesPublic c →
          stitch.exclusivePlacement (stitch.portTarget c)
                                    (stitch.portTarget c) ∈ result).
Proof.
  intros conns result.
  assert (∀ pl, pl ∈ result ↔
         pl ∈ stitch.Placements st
         ∨ ∃ c1 c2, c1 ∈ conns ∧ c2 ∈ conns
                    ∧ touchesPublic c1 ∧ touchesPublic c2
                    ∧ stitch.MinPort c1 = stitch.MinPort c2
                    ∧ pl = stitch.exclusivePlacement (stitch.portTarget c1)
                                                     (stitch.portTarget c2))
    as H.
  { intros pl. subst result.
    destruct (createPortRules_added st) as (added & -> & Hp).
    rewrite elem_of_app, Hp, elem_of_added_placements.
    split; (intros [?|(c1 & c2 & H)]; [by left|right]); exists c1, c2.
    - destruct H as (H1%list_elem_of_filter & H2%list_elem_of_filter & ?).
      tauto.
    - rewrite !list_elem_of_filter. tauto. }
  split; [done|]. split.
  - intros c1 c2 H1 H2 T1 T2 E. split; apply H; right.
    + by exists c1, c2.
    + by exists c2, c1.
  - intros c Hc T. apply H. right. by exists c, c.
Qed.

(** X18.  Without a connection from or to the public internet
    [createPortRules] changes nothing. *)
Theorem createPortRules_no_public (st : stitch.Stitch) :
  Forall (λ c, stitch.From c ≠ stitch.PublicInternetLabel
               ∧ stitch.To c ≠ stitch.PublicInternetLabel)
         (stitch.Connections st) →
  stitch.createPortRules st = st.
Proof.
  intros Hf. destruct (createPortRules_added st) as (added & E & Hp).
  assert (filter touchesPublic (stitch.Connections st) = []) as Hnil.
  { apply elem_of_nil_inv. intros c [Hc Hin]%list_elem_of_filter.
    rewrite Forall_forall in Hf. destruct (Hf c Hin), Hc; done. }
  rewrite Hnil in Hp. apply Permutation_nil_r in Hp. subst added.
  rewrite app_nil_r in E. destruct st as [conns pls].
  unfold stitch.createPortRules in *. simpl in *. by rewrite E.
Qed.

Lemma createPortRules_no_public_witness :
  stitch.createPortRules
    {| stitch.Connections :=
         [ {| stitch.From := "web"; stitch.To := "db";
              stitch.MinPort := 5432; stitch.MaxPort := 5432 |} ];
       stitch.Placements := [ stitch.exclusivePlacement "web" "db" ] |}
  = {| stitch.Connections :=
         [ {| stitch.From := "web"; stitch.To := "db";
              stitch.MinPort := 5432; stitch.MaxPort := 5432 |} ];
       stitch.Placements := [ stitch.exclusivePlacement "web" "db" ] |}.
Proof.
  apply createPortRules_no_public. repeat constructor; simpl; discriminate.
Defined.

(** Two labels published on port 80 and one on port 443. *)
Example createPortRules_example :
  stitch.Placements
    (stitch.createPortRules
       {| stitch.Connections :=
            [ {| stitch.From := "public"; stitch.To := "web";
                 stitch.MinPort := 80; stitch.MaxPort := 80 |};
              {| stitch.From := "api"; stitch.To := "public";
                 stitch.MinPort := 80; stitch.MaxPort := 90 |};
              {| stitch.From := "web"; stitch.To := "db";
                 stitch.MinPort := 80; stitch.MaxPort := 80 |};
              {| stitch.From := "public"; stitch.To := "tls";
                 stitch.MinPort := 443; stitch.MaxPort := 443 |} ];
          stitch.Placements := [] |})
  ≡ₚ [ stitch.exclusivePlacement "web" "web";
       stitch.exclusivePlacement "web" "api";
       stitch.exclusivePlacement "api" "web";
       stitch.exclusivePlacement "api" "api";
       stitch.exclusivePlacement "tls" "tls" ].
Proof.
  vm_compute.
  match goal with
  | |- ?l ≡ₚ ?k => apply (NoDup_Permutation l k)
  end.
  - repeat (apply NoDup_cons; split;
            [rewrite ?elem_of_cons, elem_of_nil; intuition discriminate|]).
    apply NoDup_nil_2.
  - repeat (apply NoDup_cons; split;
            [rewrite ?elem_of_cons, elem_of_nil; intuition discriminate|]).
    apply NoDup_nil_2.
  - intros x. rewrite !elem_of_cons, !elem_of_nil. tauto.
Qed.
